(** * internal/crypto: key derivation and XChaCha20-Poly1305 sealing

    A shallow embedding of [internal/crypto/crypto.go] and the properties of
    its key-derivation, nonce-generation, [Encrypt] and [Decrypt] functions.

    Conventions of the embedding:
    - a Go [[]byte] value is a [list byte]; the nil slice and the empty slice
      are both the empty list (Go gives both length 0, and none of the code
      involved compares a slice with nil);
    - a nilable pointer [*[]byte] is an [option (list byte)];
    - Go's [(value, err)] result pairs are pairs whose second component is an
      [option error] ([None] is the nil error);
    - a function that can [panic] returns an [outcome];
    - [crypto/rand] is an explicit entropy state threaded through the calls;
    - the third-party packages (argon2, go-password-validator,
      chacha20poly1305) are interfaces, with their documented contracts
      stated as propositions where a property needs them; module [RFC8439]
      gives the cipher construction itself, checked against the published
      test vectors, and the contract is proved of it;
    - for the question of what [Encrypt] writes, module [Store] has slices
      as windows into backing arrays kept in a store. *)

From Stdlib Require Import ZArith NArith Strings.Byte.
From stdpp Require Import base tactics option list strings pretty gmap.

Local Open Scope string_scope.
Local Open Scope list_scope.

Abbreviation length := Datatypes.length.

(** ** Bytes *)

Abbreviation byte := Byte.byte.

Global Instance byte_eq_dec : EqDecision byte := Byte.byte_eq_dec.

(** [a | b] on [uint8]. *)
Definition byte_or (a b : byte) : byte :=
  default Byte.x00 (Byte.of_N (N.lor (Byte.to_N a) (Byte.to_N b))).

(** [a ^ b] on [uint8]. *)
Definition byte_xor (a b : byte) : byte :=
  default Byte.x00 (Byte.of_N (N.lxor (Byte.to_N a) (Byte.to_N b))).

(** [[]byte(s)] for a Go string [s]. *)
Definition bytes_of_string (s : string) : list byte := String.list_byte_of_string s.

(** [make([]byte, n)]: [n] zero bytes. *)
Definition zeros (n : nat) : list byte := replicate n Byte.x00.

(** The contents of a buffer [buf] after a reader has written the bytes [w]
    at its start (a reader never writes past [len(buf)]). *)
Definition fill (buf w : list byte) : list byte :=
  take (length buf) w ++ drop (length w) buf.

(** The contents of [dst] after the builtin [copy(dst, src)], which copies
    [min(len(dst), len(src))] bytes. *)
Definition copy (dst src : list byte) : list byte :=
  take (length dst `min` length src) src ++ drop (length dst `min` length src) dst.

(** ** Errors, panics and results *)

Inductive error : Type :=
  | ErrInvalidSalt                         (* errors.New("invalid salt") *)
  | ErrInvalidPassword                     (* errors.New("invalid password") *)
  | ErrInvalidRandomSize                   (* errors.New("cannot generate random array of zero length") *)
  | ErrBadKeyLength                        (* chacha20poly1305: bad key length *)
  | ErrOpen                                (* chacha20poly1305: message authentication failed *)
  | Errorf (msg : string)                  (* fmt.Errorf(msg) *)
  | Foreign (msg : string)                 (* an error made by crypto/rand or the password validator *)
  | Wrap (cause : error) (msg : string).   (* pkgerr.Wrap(cause, msg) *)

(** [err.Error()]. *)
Fixpoint Error (e : error) : string :=
  match e with
  | ErrInvalidSalt => "invalid salt"
  | ErrInvalidPassword => "invalid password"
  | ErrInvalidRandomSize => "cannot generate random array of zero length"
  | ErrBadKeyLength => "chacha20poly1305: bad key length"
  | ErrOpen => "chacha20poly1305: message authentication failed"
  | Errorf msg => msg
  | Foreign msg => msg
  | Wrap cause msg => msg +:+ ": " +:+ Error cause
  end.

(** The value handed to [panic]. *)
Inductive panic_value : Type :=
  | PanicError (e : error)
  | PanicString (msg : string).

(** What a call does: it returns to its caller, or it panics and unwinds. *)
Inductive outcome (A : Type) : Type :=
  | Returns (a : A)
  | Panics (v : panic_value).
Global Arguments Returns {A} a.
Global Arguments Panics {A} v.

(** ** Types and constants of the package *)

Record Params : Type := mkParams { T : Z; M : Z; P : Z; L : Z }.

Record Key : Type := mkKey { Data : list byte }.

Definition passwordEntropy : Z := 60.
Definition saltSize : nat := 32.
Definition keySize : nat := 32.     (* chacha20poly1305.KeySize *)
Definition nonceSize : nat := 24.   (* chacha20poly1305.NonceSizeX *)
Definition tagSize : nat := 16.     (* chacha20poly1305.Overhead *)

Definition KiB : Z := 1024.         (* units.KiB *)

Definition DefaultParams : Params :=
  {| T := 1; M := 64 * KiB; P := 4; L := Z.of_nat keySize |}.

(** Go's integer conversions [uint32(x)] and [uint8(x)] of an [int]. *)
Definition uint32 (x : Z) : Z := x `mod` 2 ^ 32.
Definition uint8 (x : Z) : Z := x `mod` 2 ^ 8.

(** ** The packages the code calls *)

(** [passwordvalidator.Validate(password, minEntropy)]: nil, or an error
    describing why the password is too weak. *)
Class PasswordValidator : Type :=
  Validate : string → Z → option error.

(** [argon2.IDKey(password, salt, time, memory, threads, keyLen)]. *)
Class Argon2 : Type :=
  IDKey : list byte → list byte → Z → Z → Z → Z → list byte.

(** The contract of [argon2.IDKey]: the key has the length asked for. *)
Definition idkey_length `{Argon2} : Prop :=
  ∀ password salt time memory threads keyLen,
    length (IDKey password salt time memory threads keyLen) = Z.to_nat keyLen.

(** [crypto/rand]: [rand_Read n s] is a call of [rand.Read] on a buffer of
    [n] bytes in state [s] of the generator; it gives the bytes written at
    the start of the buffer, the error and the next state. *)
Class Entropy : Type := {
  entropy : Type;
  rand_Read : nat → entropy → list byte * option error * entropy
}.

(** The XChaCha20-Poly1305 primitive behind [chacha20poly1305.NewX]:
    [xseal key nonce plaintext ad] is the ciphertext followed by its tag and
    [xopen key nonce sealed ad] the plaintext, if the tag verifies. *)
Class XChaCha20Poly1305 : Type := {
  xseal : list byte → list byte → list byte → list byte → list byte;
  xopen : list byte → list byte → list byte → list byte → option (list byte)
}.

(** The longest plaintext and the longest sealed body the cipher takes. *)
Definition maxPlaintext : Z := 2 ^ 38 - 64.
Definition maxCiphertext : Z := 2 ^ 38 - 48.

(** The contract of the primitive, for a key of 32 bytes and a nonce of 24:
    sealing adds the 16-byte tag, and opening what was sealed with the same
    key, nonce and associated data gives the plaintext back. *)
Definition seal_adds_tag `{XChaCha20Poly1305} : Prop :=
  ∀ k n p a,
    length k = keySize → length n = nonceSize →
    length (xseal k n p a) = length p + tagSize.

Definition open_inverts_seal `{XChaCha20Poly1305} : Prop :=
  ∀ k n p a,
    length k = keySize → length n = nonceSize →
    (Z.of_nat (length p) ≤ maxPlaintext)%Z →
    xopen k n (xseal k n p a) a = Some p.

(** ** Password-derived keys *)

Section derivation.
Context `{PasswordValidator, Argon2}.

(** [NewIDKey]: both results are named, so every [return] gives the
    current [(key, err)]. *)
Definition NewIDKey (params : Params) (password : string) (salt : list byte)
  : option Key * option error :=
  if negb (length salt =? saltSize)%nat then
    (None, Some (Wrap ErrInvalidSalt
       ("expected len " +:+ pretty saltSize +:+ " but got " +:+ pretty (length salt))))
  else
    match Validate password passwordEntropy with
    | Some err => (None, Some (Wrap ErrInvalidPassword (Error err)))
    | None =>
        let k := IDKey (bytes_of_string password) salt
                   (uint32 (T params)) (uint32 (M params))
                   (uint8 (P params)) (uint32 (L params)) in
        (Some {| Data := k |}, None)
    end.
End derivation.

(** ** Randomness, salts and session keys *)

(** The runtime panics of [make] and of a call through a nil interface. *)
Definition makeslice_len : panic_value :=
  PanicString "runtime error: makeslice: len out of range".
Definition makeslice_cap : panic_value :=
  PanicString "runtime error: makeslice: cap out of range".
Definition nil_dereference : panic_value :=
  PanicString "runtime error: invalid memory address or nil pointer dereference".

(** [validateSaltLen]: returns nothing, panics on a salt of the wrong length. *)
Definition validateSaltLen (salt : list byte) : outcome () :=
  if negb (length salt =? saltSize)%nat then
    Panics (PanicError (Wrap ErrInvalidSalt
      ("expected len " +:+ pretty saltSize +:+ ", got " +:+ pretty (length salt))))
  else Returns ().

Section randomness.
Context `{Entropy}.

(** [NewRandom]: [random] is returned as [rand.Read] left it, with or
    without an error. *)
Definition NewRandom (size : Z) (s : entropy)
  : outcome (list byte * option error) * entropy :=
  if (size =? 0)%Z then (Returns ([], Some ErrInvalidRandomSize), s)
  else if (size <? 0)%Z then (Panics makeslice_len, s)
  else
    let random := zeros (Z.to_nat size) in
    let '(w, err, s') := rand_Read (length random) s in
    (Returns (fill random w, err), s').

(** [NewSessionKey]: [key] points to a zero [Key], whose [Data] is the nil
    slice, and [copy] writes into [key.Data[:]]. *)
Definition NewSessionKey (salt : list byte) (s : entropy)
  : outcome (option Key * option error) * entropy :=
  match validateSaltLen salt with
  | Panics v => (Panics v, s)
  | Returns _ =>
      let key := {| Data := [] |} in
      match NewRandom (Z.of_nat keySize) s with
      | (Panics v, s') => (Panics v, s')
      | (Returns (r, Some err), s') => (Returns (Some key, Some err), s')
      | (Returns (r, None), s') =>
          (Returns (Some {| Data := copy (Data key) r |}, None), s')
      end
  end.

(** [NewSalt] *)
Definition NewSalt (s : entropy) : outcome (list byte) * entropy :=
  match NewRandom (Z.of_nat saltSize) s with
  | (Panics v, s') => (Panics v, s')
  | (Returns (salt, Some err), s') =>
      (Panics (PanicError (Wrap ErrInvalidSalt (Error err))), s')
  | (Returns (salt, None), s') =>
      match validateSaltLen salt with
      | Panics v => (Panics v, s')
      | Returns _ => (Returns salt, s')
      end
  end.

(** [NewNonce]: the capacity asked of [make] only matters when it is
    below the length. The loop ors every byte of the nonce into [total]. *)
Definition NewNonce (ciphertextLen overheadLen : Z) (s : entropy)
  : outcome (list byte * option error) * entropy :=
  if (Z.of_nat nonceSize + ciphertextLen + overheadLen <? Z.of_nat nonceSize)%Z
  then (Panics makeslice_cap, s)
  else
    let nonce := zeros nonceSize in
    let '(w, err, s') := rand_Read (length nonce) s in
    let nonce := fill nonce w in
    match err with
    | Some _ => (Returns (nonce, err), s')
    | None =>
        let total := foldl byte_or Byte.x00 nonce in
        if (0 <? Byte.to_N total)%N then (Returns (nonce, None), s')
        else (Returns (nonce, Some (Errorf "got invalid all-zero nonce")), s')
    end.
End randomness.

(** ** The AEAD value made by [chacha20poly1305.NewX] *)

Record aead : Type := mkAead { aead_key : list byte }.

Section cipher.
Context `{XChaCha20Poly1305}.

(** [NewX] refuses a key that is not [KeySize] bytes long and otherwise
    keeps its own copy of the key. *)
Definition NewX (key : list byte) : option aead * option error :=
  if negb (length key =? keySize)%nat then (None, Some ErrBadKeyLength)
  else (Some {| aead_key := key |}, None).

Definition NonceSize (a : aead) : nat := nonceSize.
Definition Overhead (a : aead) : nat := tagSize.

(** [Seal] appends the sealed plaintext to [dst]; it panics on a nonce of
    the wrong length or a plaintext over the cipher's limit. *)
Definition Seal (a : aead) (dst nonce plaintext additionalData : list byte)
  : outcome (list byte) :=
  if negb (length nonce =? nonceSize)%nat then
    Panics (PanicString "chacha20poly1305: bad nonce length passed to Seal")
  else if (maxPlaintext <? Z.of_nat (length plaintext))%Z then
    Panics (PanicString "chacha20poly1305: plaintext too large")
  else Returns (dst ++ xseal (aead_key a) nonce plaintext additionalData).

(** [Open] appends the plaintext to [dst] when the tag verifies, and
    returns the nil slice with the authentication error when it does not. *)
Definition Open (a : aead) (dst nonce ciphertext additionalData : list byte)
  : outcome (list byte * option error) :=
  if negb (length nonce =? nonceSize)%nat then
    Panics (PanicString "chacha20poly1305: bad nonce length passed to Open")
  else if (length ciphertext <? tagSize)%nat then Returns ([], Some ErrOpen)
  else if (maxCiphertext <? Z.of_nat (length ciphertext))%Z then
    Panics (PanicString "chacha20poly1305: ciphertext too large")
  else
    match xopen (aead_key a) nonce ciphertext additionalData with
    | Some plaintext => Returns (dst ++ plaintext, None)
    | None => Returns ([], Some ErrOpen)
    end.
End cipher.

(** ** Encrypt and Decrypt *)

(** The associated data the cipher is given for a nilable [*[]byte]:
    [nil] for the nil pointer, the slice pointed to otherwise. *)
Definition ad_bytes (additionalData : option (list byte)) : list byte :=
  default [] additionalData.

Section sealing.
Context `{Entropy, XChaCha20Poly1305}.

(** [Encrypt]: [encrypted] is only assigned by [Seal], so the early
    returns give the nil slice. *)
Definition Encrypt (key : Key) (plaintext : list byte)
    (additionalData : option (list byte)) (s : entropy)
  : outcome (list byte * option error) * entropy :=
  match NewX (Data key) with
  | (_, Some err) => (Returns ([], Some err), s)
  | (None, None) => (Panics nil_dereference, s)
  | (Some aead, None) =>
      match NewNonce (Z.of_nat (length plaintext)) (Z.of_nat (Overhead aead)) s with
      | (Panics v, s') => (Panics v, s')
      | (Returns (_, Some err), s') => (Returns ([], Some err), s')
      | (Returns (nonce, None), s') =>
          let sealed :=
            match additionalData with
            | None => Seal aead nonce nonce plaintext []
            | Some ad => Seal aead nonce nonce plaintext ad
            end in
          match sealed with
          | Panics v => (Panics v, s')
          | Returns encrypted => (Returns (encrypted, None), s')
          end
      end
  end.

(** [Decrypt] *)
Definition Decrypt (key : Key) (encrypted : list byte)
    (additionalData : option (list byte))
  : outcome (list byte * option error) :=
  match NewX (Data key) with
  | (_, Some err) => Returns ([], Some err)
  | (None, None) => Panics nil_dereference
  | (Some aead, None) =>
      if (length encrypted <? NonceSize aead)%nat then
        Returns ([], Some (Errorf "ciphertext is too short"))
      else
        let nonce := take (NonceSize aead) encrypted in
        let ciphertext := drop (NonceSize aead) encrypted in
        match additionalData with
        | None => Open aead [] nonce ciphertext []
        | Some ad => Open aead [] nonce ciphertext ad
        end
  end.
End sealing.

(** ** The cipher construction

    XChaCha20-Poly1305 as RFC 8439 and the XChaCha draft define it: the
    ChaCha20 block function, HChaCha20, Poly1305 and the AEAD built from
    them. It is the instance of the [XChaCha20Poly1305] interface on which
    the contract of the primitive is proved and the examples are run. *)

Module RFC8439.

Definition byte_of_Z (z : Z) : byte :=
  default Byte.x00 (Byte.of_N (Z.to_N (z `mod` 256))).

Definition Z_of_byte (b : byte) : Z := Z.of_N (Byte.to_N b).

(** Little-endian numbers. *)
Fixpoint le_bytes (n : nat) (v : Z) : list byte :=
  match n with
  | 0 => []
  | S n' => byte_of_Z v :: le_bytes n' (v / 256)
  end.

Fixpoint le_num (bs : list byte) : Z :=
  match bs with
  | [] => 0
  | b :: bs' => Z_of_byte b + 256 * le_num bs'
  end.

(** 32-bit words: addition and rotation wrap around. *)
Definition wrap (x : Z) : Z := x `mod` 2 ^ 32.

Definition rotl (x n : Z) : Z :=
  wrap (Z.lor (Z.shiftl x n) (Z.shiftr x (32 - n))).

Definition words (n : nat) (bs : list byte) : list Z :=
  (λ i, le_num (take 4 (drop (4 * i) bs))) <$> seq 0 n.

Definition quarter (a b c d : nat) (st : list Z) : list Z :=
  let '(xa, xb, xc, xd) := (nth a st 0, nth b st 0, nth c st 0, nth d st 0)%Z in
  let xa := wrap (xa + xb) in let xd := rotl (Z.lxor xd xa) 16 in
  let xc := wrap (xc + xd) in let xb := rotl (Z.lxor xb xc) 12 in
  let xa := wrap (xa + xb) in let xd := rotl (Z.lxor xd xa) 8 in
  let xc := wrap (xc + xd) in let xb := rotl (Z.lxor xb xc) 7 in
  <[a := xa]> (<[b := xb]> (<[c := xc]> (<[d := xd]> st))).

Definition double_round (st : list Z) : list Z :=
  let st := quarter 0 4 8 12 st in
  let st := quarter 1 5 9 13 st in
  let st := quarter 2 6 10 14 st in
  let st := quarter 3 7 11 15 st in
  let st := quarter 0 5 10 15 st in
  let st := quarter 1 6 11 12 st in
  let st := quarter 2 7 8 13 st in
  quarter 3 4 9 14 st.

Definition rounds20 (st : list Z) : list Z := Nat.iter 10 double_round st.

(** "expand 32-byte k" *)
Definition sigma : list Z :=
  [0x61707865; 0x3320646e; 0x79622d32; 0x6b206574]%Z.

(** The 64-byte block for a 32-byte key, a block counter and a 12-byte
    nonce. *)
Definition block (key : list byte) (counter : Z) (nonce : list byte) : list byte :=
  let st := sigma ++ words 8 key ++ [wrap counter] ++ words 3 nonce in
  zip_with (λ x y, wrap (x + y)) (rounds20 st) st ≫= le_bytes 4.

(** HChaCha20: the subkey for a 32-byte key and a 16-byte nonce. *)
Definition hchacha20 (key nonce : list byte) : list byte :=
  let st := rounds20 (sigma ++ words 8 key ++ words 4 nonce) in
  (take 4 st ++ drop 12 st) ≫= le_bytes 4.

(** The data xored with the key stream, block by block from block
    [counter] on; [blocks] bounds the number of blocks. *)
Fixpoint xor_blocks (blocks : nat) (key nonce : list byte) (counter : Z)
    (data : list byte) : list byte :=
  match blocks, data with
  | S blocks', _ :: _ =>
      zip_with byte_xor (take 64 data) (block key counter nonce)
      ++ xor_blocks blocks' key nonce (counter + 1) (drop 64 data)
  | _, _ => []
  end.

Definition xor_stream (key nonce : list byte) (counter : Z) (data : list byte)
  : list byte :=
  xor_blocks (length data) key nonce counter data.

(** Poly1305: the blocks of the message are the coefficients of a
    polynomial evaluated at [r] modulo [2^130 - 5]. *)
Definition p1305 : Z := 2 ^ 130 - 5.

Definition clamp (r : Z) : Z := Z.land r 0x0ffffffc0ffffffc0ffffffc0fffffff.

Fixpoint poly_blocks (blocks : nat) (r acc : Z) (msg : list byte) : Z :=
  match blocks, msg with
  | S blocks', _ :: _ =>
      let blk := take 16 msg in
      let n := (le_num blk + 2 ^ (8 * Z.of_nat (length blk)))%Z in
      poly_blocks blocks' r (((acc + n) * r) `mod` p1305) (drop 16 msg)
  | _, _ => acc
  end.

Definition poly1305 (key msg : list byte) : list byte :=
  let r := clamp (le_num (take 16 key)) in
  let s := le_num (drop 16 key) in
  le_bytes 16 (poly_blocks (length msg) r 0 msg + s).

Definition pad16 (bs : list byte) : list byte :=
  replicate ((16 - length bs `mod` 16) `mod` 16) Byte.x00.

Definition mac_data (ad ciphertext : list byte) : list byte :=
  ad ++ pad16 ad ++ ciphertext ++ pad16 ciphertext
  ++ le_bytes 8 (Z.of_nat (length ad)) ++ le_bytes 8 (Z.of_nat (length ciphertext)).

(** ChaCha20-Poly1305: the one-time Poly1305 key is the start of block 0,
    the plaintext is encrypted from block 1 on. *)
Definition tag (key nonce ad ciphertext : list byte) : list byte :=
  poly1305 (take 32 (block key 0 nonce)) (mac_data ad ciphertext).

Definition seal (key nonce plaintext ad : list byte) : list byte :=
  let ciphertext := xor_stream key nonce 1 plaintext in
  ciphertext ++ tag key nonce ad ciphertext.

Definition open (key nonce sealed ad : list byte) : option (list byte) :=
  let n := length sealed - tagSize in
  let ciphertext := take n sealed in
  if decide (drop n sealed = tag key nonce ad ciphertext) then
    Some (xor_stream key nonce 1 ciphertext)
  else None.

(** XChaCha20-Poly1305: a subkey from the first 16 bytes of the 24-byte
    nonce, the rest of the nonce behind four zero bytes. *)
Definition subnonce (nonce : list byte) : list byte :=
  replicate 4 Byte.x00 ++ take 8 (drop 16 nonce).

Definition xseal (key nonce plaintext ad : list byte) : list byte :=
  seal (hchacha20 key (take 16 nonce)) (subnonce nonce) plaintext ad.

Definition xopen (key nonce sealed ad : list byte) : option (list byte) :=
  open (hchacha20 key (take 16 nonce)) (subnonce nonce) sealed ad.

Definition cipher : XChaCha20Poly1305 := Build_XChaCha20Poly1305 xseal xopen.

(** The Poly1305 multiplier of a sealing, as the holder of the key
    computes it. *)
Definition multiplier (key nonce : list byte) : Z :=
  clamp (le_num (take 16 (block (hchacha20 key (take 16 nonce)) 0 (subnonce nonce)))).

(** [n] bytes counting up from [a]. *)
Definition upfrom (a : Z) (n : nat) : list byte :=
  (λ i, byte_of_Z (a + Z.of_nat i)) <$> seq 0 n.

(** The plaintext of the published test vectors. *)
Definition sunscreen : list byte :=
  bytes_of_string "Ladies and Gentlemen of the class of '99: If I could offer you only one tip for the future, sunscreen would be it.".

End RFC8439.

(** ** Stand-ins for the other packages

    Deterministic and small enough to run: a tape of bytes for the entropy
    source, a length rule for the password validator and a repetition of
    its inputs for Argon2id. *)

Module Reference.

(** The generator hands out the bytes of a tape and fails at its end. *)
Definition tape_Read (n : nat) (tape : list byte)
  : list byte * option error * list byte :=
  if (n <=? length tape)%nat then (take n tape, None, drop n tape)
  else (tape, Some (Foreign "unexpected EOF"), []).

Definition tape : Entropy := {| entropy := list byte; rand_Read := tape_Read |}.

Definition long_enough : PasswordValidator := λ password _,
  if (String.length password <? 12)%nat then
    Some (Foreign "insecure password, try using a longer password")
  else None.

(** [out] bytes: the material repeated as often as needed. *)
Fixpoint stretch (material : list byte) (rounds out : nat) : list byte :=
  match rounds with
  | 0 => zeros out
  | S rounds' =>
      take out material ++ stretch material rounds' (out - length material)
  end.

Definition stretched : Argon2 := λ password salt _ _ _ keyLen,
  stretch (password ++ salt) (Z.to_nat keyLen) (Z.to_nat keyLen).

(** Inputs for the examples. *)
Definition upto (n : nat) : list byte := RFC8439.upfrom 1 n.

Definition K1 : Key := {| Data := upto 32 |}.
Definition hello_world : list byte := bytes_of_string "hello world".

(** Two associated data of 32 bytes: a one followed by zeros, and sixteen
    zeros followed by the Poly1305 multiplier of the sealing under [K1] and
    the nonce [upto 24]. Both give the Poly1305 polynomial the same
    value. *)
Definition ad_one : list byte := Byte.x01 :: zeros 31.
Definition ad_other : list byte :=
  zeros 16 ++ RFC8439.le_bytes 16 (RFC8439.multiplier (upto 32) (upto 24)).

End Reference.

(** ** Encrypt over a store of backing arrays

    To state what [Encrypt] writes, slices are taken as Go has them: a
    window [off, off + len) with capacity [cap] into a backing array, and
    the backing arrays live in a store. [Store.Encrypt] is [Encrypt] with
    every allocation, read and write made explicit. *)

Module Store.

Definition loc : Type := positive.

Inductive slice : Type :=
  | NilSlice
  | Slice (a : loc) (off len cap : nat).

Abbreviation heap := (gmap loc (list byte)).

Definition len (s : slice) : nat :=
  match s with NilSlice => 0 | Slice _ _ n _ => n end.

Definition cap (s : slice) : nat :=
  match s with NilSlice => 0 | Slice _ _ _ c => c end.

(** The bytes a slice shows. *)
Definition bytes (h : heap) (s : slice) : list byte :=
  match s with
  | NilSlice => []
  | Slice a off n _ => take n (drop off (default [] (h !! a)))
  end.

(** A slice of the store: its array is allocated and holds its capacity. *)
Definition valid (h : heap) (s : slice) : Prop :=
  match s with
  | NilSlice => True
  | Slice a off n c =>
      ∃ arr, h !! a = Some arr ∧ (n ≤ c)%nat ∧ (off + c ≤ length arr)%nat
  end.

Definition valid_opt (h : heap) (ad : option slice) : Prop :=
  match ad with Some s => valid h s | None => True end.

(** [make([]byte, n, c)]: a new zeroed array. *)
Definition make (n c : nat) (h : heap) : slice * heap :=
  let a := fresh (dom h) in
  (Slice a 0 n c, <[a := zeros c]> h).

(** Overwrite array [a] from index [i] on with [w], within its bounds. *)
Definition poke (a : loc) (i : nat) (w : list byte) (h : heap) : heap :=
  match h !! a with
  | Some old =>
      <[a := take i old ++ take (length old - i) w ++ drop (i + length w) old]> h
  | None => h
  end.

(** Write [w] at the start of the window of [s], at most [len(s)] bytes. *)
Definition store (s : slice) (w : list byte) (h : heap) : heap :=
  match s with
  | NilSlice => h
  | Slice a off n _ => poke a off (take n w) h
  end.

(** [s[i:]] *)
Definition from (s : slice) (i : nat) : slice :=
  match s with
  | NilSlice => NilSlice
  | Slice a off n c => Slice a (off + i) (n - i) (c - i)
  end.

(** [alias.InexactOverlap(x, y)]: the windows share bytes but do not
    start at the same byte. *)
Definition InexactOverlap (x y : slice) : bool :=
  match x, y with
  | Slice a off n _, Slice a' off' n' _ =>
      bool_decide (a = a') && (0 <? n)%nat && (0 <? n')%nat
      && negb (off =? off')%nat
      && (off <? off' + n')%nat && (off' <? off + n)%nat
  | _, _ => false
  end.

(** [sliceForAppend(in, n)]: [head] extends [in] by [n] bytes, in place
    when the capacity allows and in a new array otherwise; [tail] is the
    extension. *)
Definition sliceForAppend (s : slice) (n : nat) (h : heap)
  : slice * slice * heap :=
  let total := len s + n in
  let '(head, h') :=
    if (total <=? cap s)%nat then
      (match s with
       | NilSlice => NilSlice
       | Slice a off _ c => Slice a off total c
       end, h)
    else
      let '(head, h1) := make total total h in
      (head, store head (bytes h s) h1) in
  (head, from head (len s), h').

Section sealing.
Context `{Entropy, XChaCha20Poly1305}.

(** [NewNonce] *)
Definition NewNonce (ciphertextLen overheadLen : Z) (h : heap) (s : entropy)
  : outcome (slice * option error) * heap * entropy :=
  if (Z.of_nat nonceSize + ciphertextLen + overheadLen <? Z.of_nat nonceSize)%Z
  then (Panics makeslice_cap, h, s)
  else
    let '(nonce, h) :=
      make nonceSize (Z.to_nat (Z.of_nat nonceSize + ciphertextLen + overheadLen)) h in
    let '(w, err, s') := rand_Read (len nonce) s in
    let h := store nonce w h in
    match err with
    | Some _ => (Returns (nonce, err), h, s')
    | None =>
        let total := foldl byte_or Byte.x00 (bytes h nonce) in
        if (0 <? Byte.to_N total)%N then (Returns (nonce, None), h, s')
        else (Returns (nonce, Some (Errorf "got invalid all-zero nonce")), h, s')
    end.

(** [Seal]: the sealed bytes are written into the extension of [dst]. *)
Definition Seal (a : aead) (dst nonce plaintext additionalData : slice) (h : heap)
  : outcome slice * heap :=
  if negb (len nonce =? nonceSize)%nat then
    (Panics (PanicString "chacha20poly1305: bad nonce length passed to Seal"), h)
  else if (maxPlaintext <? Z.of_nat (len plaintext))%Z then
    (Panics (PanicString "chacha20poly1305: plaintext too large"), h)
  else
    let sealed :=
      xseal (aead_key a) (bytes h nonce) (bytes h plaintext) (bytes h additionalData) in
    let '(ret, out, h') := sliceForAppend dst (len plaintext + tagSize) h in
    if InexactOverlap out plaintext then
      (Panics (PanicString "chacha20poly1305: invalid buffer overlap"), h')
    else (Returns ret, store out sealed h').

(** [Encrypt]: [key.Data] is read by [NewX], which copies it into the
    AEAD value. *)
Definition Encrypt (key : slice) (plaintext : slice)
    (additionalData : option slice) (h : heap) (s : entropy)
  : outcome (slice * option error) * heap * entropy :=
  match NewX (bytes h key) with
  | (_, Some err) => (Returns (NilSlice, Some err), h, s)
  | (None, None) => (Panics nil_dereference, h, s)
  | (Some aead, None) =>
      match NewNonce (Z.of_nat (len plaintext)) (Z.of_nat (Overhead aead)) h s with
      | (Panics v, h', s') => (Panics v, h', s')
      | (Returns (_, Some err), h', s') => (Returns (NilSlice, Some err), h', s')
      | (Returns (nonce, None), h', s') =>
          let '(sealed, h'') :=
            match additionalData with
            | None => Seal aead nonce nonce plaintext NilSlice h'
            | Some ad => Seal aead nonce nonce plaintext ad h'
            end in
          match sealed with
          | Panics v => (Panics v, h'', s')
          | Returns encrypted => (Returns (encrypted, None), h'', s')
          end
      end
  end.
End sealing.

(** The view of a store-level result as the byte values it denotes. *)
Definition result_bytes (h : heap) (o : outcome (slice * option error))
  : outcome (list byte * option error) :=
  match o with
  | Returns (s, err) => Returns (bytes h s, err)
  | Panics v => Panics v
  end.

End Store.

(** A store for the examples: the key [K1] and the plaintext. *)
Definition example_store : Store.heap :=
  {[ 1%positive := Reference.upto 32; 2%positive := Reference.hello_world ]}.

(** * Properties *)

(** ** Bytes and buffers *)

Lemma to_N_inj (a b : byte) : Byte.to_N a = Byte.to_N b → a = b.
Proof.
  intros E. apply (inj Some). by rewrite <- (Byte.of_to_N a), <- (Byte.of_to_N b), E.
Qed.

Lemma log2_byte (a : byte) : (N.log2 (Byte.to_N a) < 8)%N.
Proof.
  pose proof (Byte.to_N_bounded a) as Hb.
  destruct (decide (Byte.to_N a = 0%N)) as [-> | Hz]; [done |].
  apply N.log2_lt_pow2; lia.
Qed.

(** A bitwise operation that does not lengthen its operands stays a byte. *)
Lemma to_N_bitwise (f : N → N → N) (a b : byte) :
  (∀ x y, (N.log2 (f x y) ≤ N.max (N.log2 x) (N.log2 y))%N) →
  Byte.to_N (default Byte.x00 (Byte.of_N (f (Byte.to_N a) (Byte.to_N b))))
  = f (Byte.to_N a) (Byte.to_N b).
Proof.
  intros Hf.
  destruct (Byte.of_N (f (Byte.to_N a) (Byte.to_N b))) as [c |] eqn:E; simpl.
  - by apply Byte.to_of_N.
  - apply Byte.of_N_None_iff in E.
    pose proof (Hf (Byte.to_N a) (Byte.to_N b)) as Hl.
    pose proof (log2_byte a). pose proof (log2_byte b).
    assert (f (Byte.to_N a) (Byte.to_N b) < 2 ^ 8)%N; [| lia].
    apply N.log2_lt_pow2; lia.
Qed.

Lemma to_N_byte_or (a b : byte) :
  Byte.to_N (byte_or a b) = N.lor (Byte.to_N a) (Byte.to_N b).
Proof. apply to_N_bitwise. intros x y. by rewrite N.log2_lor. Qed.

Lemma to_N_byte_xor (a b : byte) :
  Byte.to_N (byte_xor a b) = N.lxor (Byte.to_N a) (Byte.to_N b).
Proof. apply to_N_bitwise, N.log2_lxor. Qed.

Lemma byte_or_zero (a b : byte) :
  byte_or a b = Byte.x00 ↔ a = Byte.x00 ∧ b = Byte.x00.
Proof.
  split.
  - intros E. apply (f_equal Byte.to_N) in E. rewrite to_N_byte_or in E.
    apply N.lor_eq_0_iff in E as [Ea Eb]. split; by apply to_N_inj.
  - by intros [-> ->].
Qed.

Lemma byte_xor_cancel (a b : byte) : byte_xor (byte_xor a b) b = a.
Proof.
  apply to_N_inj. rewrite !to_N_byte_xor.
  by rewrite N.lxor_assoc, N.lxor_nilpotent, N.lxor_0_r.
Qed.

(** The loop of [NewNonce] ends with [total = 0] exactly on a nonce of zeros. *)
Lemma foldl_byte_or_zero (acc : byte) (l : list byte) :
  foldl byte_or acc l = Byte.x00 ↔ acc = Byte.x00 ∧ Forall (λ x, x = Byte.x00) l.
Proof.
  revert acc. induction l as [| x l IH]; intros acc; simpl.
  - split; [by intros -> | by intros [-> _]].
  - rewrite IH, byte_or_zero, Forall_cons. tauto.
Qed.

Lemma to_N_pos_iff (a : byte) : (0 <? Byte.to_N a)%N = false ↔ a = Byte.x00.
Proof.
  rewrite N.ltb_ge. split.
  - intros Hle. apply to_N_inj. simpl. lia.
  - by intros ->.
Qed.

Lemma length_zeros n : length (zeros n) = n.
Proof. apply length_replicate. Qed.

Lemma length_fill buf w : length (fill buf w) = length buf.
Proof. unfold fill. rewrite length_app, length_take, length_drop. lia. Qed.

Lemma fill_exact buf w : length w = length buf → fill buf w = w.
Proof.
  intros E. unfold fill. rewrite <- E, firstn_all, drop_ge by lia. apply app_nil_r.
Qed.

Lemma copy_nil_l src : copy [] src = [].
Proof. done. Qed.

Lemma length_copy dst src : length (copy dst src) = length dst.
Proof. unfold copy. rewrite length_app, length_take, length_drop. lia. Qed.

(** ** Password-derived keys *)

Section derivation_properties.
Context `{PasswordValidator, Argon2}.

(** [NewIDKey] succeeds exactly on a 32-byte salt and a password the
    validator accepts, and the key is then the Argon2id output. *)
Lemma NewIDKey_success params password salt key :
  NewIDKey params password salt = (Some key, None) ↔
  length salt = saltSize ∧ Validate password passwordEntropy = None ∧
  key = {| Data := IDKey (bytes_of_string password) salt
                     (uint32 (T params)) (uint32 (M params))
                     (uint8 (P params)) (uint32 (L params)) |}.
Proof.
  unfold NewIDKey.
  destruct (length salt =? saltSize)%nat eqn:El; simpl.
  - apply Nat.eqb_eq in El.
    destruct (Validate password passwordEntropy) as [err |]; split.
    + discriminate.
    + by intros (_ & ? & _).
    + by intros [= <-].
    + by intros (_ & _ & ->).
  - apply Nat.eqb_neq in El. split; [discriminate | by intros (? & _)].
Qed.

(** C5: two successful calls of NewIDKey with the same params, password
    and salt return keys with byte-identical Data, namely the Argon2id
    output for those inputs. *)
Theorem NewIDKey_deterministic params password salt key1 key2 :
  NewIDKey params password salt = (Some key1, None) →
  NewIDKey params password salt = (Some key2, None) →
  Data key1 = Data key2 ∧
  Data key1 = IDKey (bytes_of_string password) salt
                (uint32 (T params)) (uint32 (M params))
                (uint8 (P params)) (uint32 (L params)).
Proof.
  intros H1 H2. apply NewIDKey_success in H1 as (_ & _ & ->).
  apply NewIDKey_success in H2 as (_ & _ & ->). done.
Qed.

(** C6: with a salt whose length is not 32, NewIDKey returns no key and
    the wrapped ErrInvalidSalt, whatever the params, the password and the
    validator's opinion of the password. *)
Theorem NewIDKey_invalid_salt params password salt :
  length salt ≠ saltSize →
  NewIDKey params password salt =
    (None, Some (Wrap ErrInvalidSalt
                   ("expected len 32 but got " +:+ pretty (length salt)))).
Proof.
  intros Hl. unfold NewIDKey.
  by rewrite (proj2 (Nat.eqb_neq _ _) Hl).
Qed.
End derivation_properties.

Lemma NewIDKey_deterministic_witness :
  let salt := Reference.upto 32 in
  let key :=
    {| Data := bytes_of_string "Tr0ub4dor&3xample!Long" ++ Reference.upto 10 |} in
  Data key = Data key ∧
  Data key = Reference.stretched (bytes_of_string "Tr0ub4dor&3xample!Long") salt
               1%Z 65536%Z 4%Z 32%Z.
Proof.
  exact (@NewIDKey_deterministic Reference.long_enough Reference.stretched
           DefaultParams "Tr0ub4dor&3xample!Long" (Reference.upto 32) _ _
           eq_refl eq_refl).
Defined.

Lemma NewIDKey_invalid_salt_witness :
  @NewIDKey Reference.long_enough Reference.stretched
     DefaultParams "password" (zeros 16)
  = (None, Some (Wrap ErrInvalidSalt "expected len 32 but got 16")).
Proof.
  apply (@NewIDKey_invalid_salt Reference.long_enough Reference.stretched
           DefaultParams "password" (zeros 16)).
  vm_compute. discriminate.
Defined.

(** ** Session keys *)

Section session_key_properties.
Context `{Entropy}.

Lemma validateSaltLen_ok salt :
  length salt = saltSize → validateSaltLen salt = Returns ().
Proof. intros E. unfold validateSaltLen. by rewrite E. Qed.

Lemma NewRandom_returns (n : nat) s w err s' :
  n ≠ 0 → rand_Read n s = (w, err, s') →
  NewRandom (Z.of_nat n) s = (Returns (fill (zeros n) w, err), s').
Proof.
  intros Hn Hr. unfold NewRandom.
  destruct (Z.eqb_spec (Z.of_nat n) 0); [lia |].
  destruct (Z.ltb_spec (Z.of_nat n) 0); [lia |].
  by rewrite Nat2Z.id, length_zeros, Hr.
Qed.

(** C2: what NewSessionKey returns on a 32-byte salt when the random
    source succeeds: a Key whose Data is the nil slice, of length 0 and
    not keySize, holding none of the bytes that were drawn. *)
Theorem NewSessionKey_empty_key salt s w s' :
  length salt = saltSize →
  rand_Read keySize s = (w, None, s') →
  NewSessionKey salt s = (Returns (Some {| Data := [] |}, None), s').
Proof.
  intros Hl Hr. unfold NewSessionKey.
  rewrite (validateSaltLen_ok _ Hl).
  by rewrite (NewRandom_returns keySize s w None s').
Qed.

(** C4: what NewSessionKey does on a salt whose length is not 32: it
    panics with the wrapped ErrInvalidSalt and returns nothing, before
    any random byte is drawn. *)
Theorem NewSessionKey_invalid_salt_panics salt s :
  length salt ≠ saltSize →
  NewSessionKey salt s =
    (Panics (PanicError (Wrap ErrInvalidSalt
               ("expected len 32, got " +:+ pretty (length salt)))), s).
Proof.
  intros Hl. unfold NewSessionKey, validateSaltLen.
  by rewrite (proj2 (Nat.eqb_neq _ _) Hl).
Qed.
End session_key_properties.

Lemma NewSessionKey_empty_key_witness :
  @NewSessionKey Reference.tape (zeros 32) (Reference.upto 40)
  = (Returns (Some {| Data := [] |}, None), drop 32 (Reference.upto 40)).
Proof.
  apply (@NewSessionKey_empty_key Reference.tape (zeros 32) (Reference.upto 40)
           (Reference.upto 32)); reflexivity.
Defined.

Lemma NewSessionKey_invalid_salt_panics_witness :
  @NewSessionKey Reference.tape (zeros 31) (Reference.upto 40)
  = (Panics (PanicError (Wrap ErrInvalidSalt "expected len 32, got 31")),
     Reference.upto 40).
Proof.
  apply (@NewSessionKey_invalid_salt_panics Reference.tape (zeros 31)).
  vm_compute. discriminate.
Defined.

(** ** Nonces, Encrypt and Decrypt *)

Section sealing_properties.
Context `{Entropy, XChaCha20Poly1305}.

Lemma NewX_ok key :
  length key = keySize → NewX key = (Some {| aead_key := key |}, None).
Proof. intros E. unfold NewX. by rewrite E. Qed.

Lemma NewX_bad key :
  length key ≠ keySize → NewX key = (None, Some ErrBadKeyLength).
Proof. intros E. unfold NewX. by rewrite (proj2 (Nat.eqb_neq _ _) E). Qed.

Lemma NewX_inv key a :
  NewX key = (Some a, None) → a = {| aead_key := key |} ∧ length key = keySize.
Proof.
  unfold NewX. destruct (Nat.eqb_spec (length key) keySize); [| discriminate].
  by intros [= <-].
Qed.

(** A nonce returned without error is the 24 bytes drawn, not all zero. *)
Lemma NewNonce_inv c o s nonce s' :
  NewNonce c o s = (Returns (nonce, None), s') →
  ∃ w, rand_Read nonceSize s = (w, None, s') ∧
       nonce = fill (zeros nonceSize) w ∧
       length nonce = nonceSize ∧
       ¬ Forall (λ x, x = Byte.x00) nonce.
Proof.
  unfold NewNonce. case_match; [discriminate |].
  rewrite length_zeros.
  destruct (rand_Read nonceSize s) as [[w err] s1].
  destruct err as [e |]; [discriminate |].
  destruct (0 <? _)%N eqn:Ht; [| discriminate].
  intros [= <- <-]. exists w. repeat split.
  - by rewrite length_fill, length_zeros.
  - intros Hz.
    assert (foldl byte_or Byte.x00 (fill (zeros nonceSize) w) = Byte.x00) as E
      by by apply foldl_byte_or_zero.
    by rewrite E in Ht.
Qed.

(** [NewNonce] returns whenever the entropy source delivers a nonce that
    is not all zero. *)
Lemma NewNonce_returns c o s w s' :
  (0 ≤ c + o)%Z →
  rand_Read nonceSize s = (w, None, s') →
  ¬ Forall (λ x, x = Byte.x00) (fill (zeros nonceSize) w) →
  NewNonce c o s = (Returns (fill (zeros nonceSize) w, None), s').
Proof.
  intros Hc Hr Hnz. unfold NewNonce.
  destruct (Z.ltb_spec (Z.of_nat nonceSize + c + o) (Z.of_nat nonceSize)); [lia |].
  rewrite length_zeros, Hr.
  destruct (0 <? _)%N eqn:Ht; [done |].
  apply to_N_pos_iff, foldl_byte_or_zero in Ht as [_ Hz]. by destruct Hnz.
Qed.

(** What a successful [Encrypt] has done. *)
Lemma Encrypt_inv key plaintext ad s encrypted s' :
  Encrypt key plaintext ad s = (Returns (encrypted, None), s') →
  length (Data key) = keySize ∧
  (Z.of_nat (length plaintext) ≤ maxPlaintext)%Z ∧
  ∃ nonce,
    NewNonce (Z.of_nat (length plaintext)) (Z.of_nat tagSize) s
      = (Returns (nonce, None), s') ∧
    encrypted = nonce ++ xseal (Data key) nonce plaintext (ad_bytes ad).
Proof.
  unfold Encrypt.
  destruct (decide (length (Data key) = keySize)) as [Hk | Hk];
    [rewrite (NewX_ok _ Hk) | by rewrite (NewX_bad _ Hk)].
  unfold Overhead.
  destruct (NewNonce _ _ s) as [[[nonce [e |]] | v] s1] eqn:Hn; try discriminate.
  pose proof (NewNonce_inv _ _ _ _ _ Hn) as (w & _ & _ & Hlen & _).
  assert (∀ a, Seal {| aead_key := Data key |} nonce nonce plaintext a
               = if (maxPlaintext <? Z.of_nat (length plaintext))%Z
                 then Panics (PanicString "chacha20poly1305: plaintext too large")
                 else Returns (nonce ++ xseal (Data key) nonce plaintext a)) as HS.
  { intros a. unfold Seal. by rewrite Hlen. }
  intros Hres. split; [done |].
  destruct (Z.ltb_spec maxPlaintext (Z.of_nat (length plaintext))).
  - destruct ad; rewrite HS in Hres; discriminate.
  - split; [done |]. exists nonce.
    destruct ad; rewrite HS in Hres; by injection Hres as <- <-.
Qed.

(** [Encrypt] does return a ciphertext for a 32-byte key whenever the
    entropy source delivers a nonce that is not all zero and the plaintext
    is within the cipher's limit. *)
Lemma Encrypt_returns key plaintext ad s w s' :
  length (Data key) = keySize →
  (Z.of_nat (length plaintext) ≤ maxPlaintext)%Z →
  rand_Read nonceSize s = (w, None, s') →
  ¬ Forall (λ x, x = Byte.x00) (fill (zeros nonceSize) w) →
  Encrypt key plaintext ad s =
    (Returns (fill (zeros nonceSize) w
                ++ xseal (Data key) (fill (zeros nonceSize) w) plaintext (ad_bytes ad),
              None), s').
Proof.
  intros Hk Hp Hr Hnz. unfold Encrypt. rewrite (NewX_ok _ Hk).
  rewrite (NewNonce_returns _ _ s w s') by (done || unfold Overhead; lia).
  unfold Seal. rewrite length_fill, length_zeros.
  destruct (Z.ltb_spec maxPlaintext (Z.of_nat (length plaintext))); [lia |].
  by destruct ad.
Qed.

(** [Decrypt] of a nonce followed by a sealed body is the cipher's
    verdict on that body. *)
Lemma Decrypt_sealed key nonce plaintext a ad :
  seal_adds_tag →
  length (Data key) = keySize →
  length nonce = nonceSize →
  (Z.of_nat (length plaintext) ≤ maxPlaintext)%Z →
  Decrypt key (nonce ++ xseal (Data key) nonce plaintext a) ad =
    match xopen (Data key) nonce (xseal (Data key) nonce plaintext a) (ad_bytes ad) with
    | Some p => Returns (p, None)
    | None => Returns ([], Some ErrOpen)
    end.
Proof.
  intros Htag Hk Hn Hp. unfold Decrypt. rewrite (NewX_ok _ Hk).
  unfold NonceSize. rewrite length_app, Hn.
  destruct (Nat.ltb_spec (nonceSize + length (xseal (Data key) nonce plaintext a)) nonceSize);
    [lia |].
  rewrite (take_app_length' nonce) by done.
  rewrite (drop_app_length' nonce) by done.
  assert (∀ b, Open {| aead_key := Data key |} [] nonce
                 (xseal (Data key) nonce plaintext a) b
               = match xopen (Data key) nonce (xseal (Data key) nonce plaintext a) b with
                 | Some p => Returns (p, None)
                 | None => Returns ([], Some ErrOpen)
                 end) as HO.
  { intros b. unfold Open. rewrite Hn, Htag by done. simpl.
    destruct (Nat.ltb_spec (length plaintext + tagSize) tagSize); [lia |].
    destruct (Z.ltb_spec maxCiphertext (Z.of_nat (length plaintext + tagSize)));
      [unfold maxCiphertext, maxPlaintext, tagSize in *; lia | done]. }
  destruct ad; apply HO.
Qed.
End sealing_properties.

Section sealing_claims.
Context `{Entropy, XChaCha20Poly1305}.

(** C1: round trip. Whatever the key, the plaintext and the associated
    data (present, empty or absent), a ciphertext returned by Encrypt is
    decrypted by Decrypt, under the same key and associated data, to
    exactly the plaintext; and Encrypt does return such a ciphertext for
    every 32-byte key, once the entropy source has delivered a nonce that
    is not all zero and the plaintext is within the cipher's limit. *)
Theorem Decrypt_Encrypt key plaintext ad s :
  seal_adds_tag → open_inverts_seal →
  (∀ encrypted s',
     Encrypt key plaintext ad s = (Returns (encrypted, None), s') →
     Decrypt key encrypted ad = Returns (plaintext, None)) ∧
  (∀ w s',
     length (Data key) = keySize →
     (Z.of_nat (length plaintext) ≤ maxPlaintext)%Z →
     rand_Read nonceSize s = (w, None, s') →
     ¬ Forall (λ x, x = Byte.x00) (fill (zeros nonceSize) w) →
     ∃ encrypted,
       Encrypt key plaintext ad s = (Returns (encrypted, None), s') ∧
       Decrypt key encrypted ad = Returns (plaintext, None)).
Proof.
  intros Htag Hinv.
  assert (∀ encrypted s',
            Encrypt key plaintext ad s = (Returns (encrypted, None), s') →
            Decrypt key encrypted ad = Returns (plaintext, None)) as Hround.
  { intros encrypted s' Henc.
    apply Encrypt_inv in Henc as (Hk & Hp & nonce & Hn & ->).
    apply NewNonce_inv in Hn as (_ & _ & _ & Hlen & _).
    rewrite Decrypt_sealed by done. by rewrite Hinv. }
  split; [done |]. intros w s' Hk Hp Hr Hnz.
  eexists. split; [by apply (Encrypt_returns _ _ _ _ w s') |].
  apply (Hround _ s'). by apply (Encrypt_returns _ _ _ _ w s').
Qed.

(** C3, as the code has it: the associated data reaches the cipher as
    bytes, an absent associated data as the zero-length bytes. When the
    cipher rejects the sealed body under the bytes supplied to Decrypt,
    Decrypt returns the authentication error and no plaintext; when the
    bytes supplied are those given to Encrypt, it returns the plaintext, so
    absent associated data opens what was sealed with present-but-empty
    associated data, and conversely. *)
Theorem associated_data_binding key plaintext A B s encrypted s' :
  seal_adds_tag →
  Encrypt key plaintext A s = (Returns (encrypted, None), s') →
  (xopen (Data key) (take 24 encrypted) (drop 24 encrypted) (ad_bytes B) = None →
   Decrypt key encrypted B = Returns ([], Some ErrOpen)) ∧
  (open_inverts_seal → ad_bytes A = ad_bytes B →
   Decrypt key encrypted B = Returns (plaintext, None)).
Proof.
  intros Htag Henc.
  apply Encrypt_inv in Henc as (Hk & Hp & nonce & Hn & ->).
  apply NewNonce_inv in Hn as (_ & _ & _ & Hlen & _).
  rewrite Decrypt_sealed by done.
  rewrite (take_app_length' nonce), (drop_app_length' nonce) by done.
  split.
  - by intros ->.
  - intros Hinv <-. by rewrite Hinv.
Qed.

(** C7: a ciphertext returned by Encrypt under a 32-byte key is the
    24-byte nonce followed by the sealed plaintext (ciphertext and tag), of
    total length 24 + len(plaintext) + 16; for the 11-byte plaintext
    "hello world" that is 51 bytes. *)
Theorem Encrypt_layout key plaintext ad s encrypted s' :
  seal_adds_tag →
  length (Data key) = keySize →
  Encrypt key plaintext ad s = (Returns (encrypted, None), s') →
  (∃ nonce,
     length nonce = 24 ∧
     encrypted = nonce ++ xseal (Data key) nonce plaintext (ad_bytes ad) ∧
     take 24 encrypted = nonce ∧
     drop 24 encrypted = xseal (Data key) nonce plaintext (ad_bytes ad)) ∧
  length encrypted = 24 + length plaintext + 16 ∧
  (plaintext = bytes_of_string "hello world" → length encrypted = 51).
Proof.
  intros Htag _ Henc.
  apply Encrypt_inv in Henc as (Hk & Hp & nonce & Hn & ->).
  apply NewNonce_inv in Hn as (_ & _ & _ & Hlen & _).
  assert (length (nonce ++ xseal (Data key) nonce plaintext (ad_bytes ad))
          = 24 + length plaintext + 16) as Htotal.
  { rewrite length_app, Htag, Hlen by done. unfold nonceSize, tagSize. lia. }
  split; [| split].
  - exists nonce. repeat split; [done | |].
    + by rewrite take_app_length'.
    + by rewrite drop_app_length'.
  - done.
  - intros ->. by rewrite Htotal.
Qed.

(** C8: under a 32-byte key, an input shorter than the 24-byte nonce makes
    Decrypt fail with the too-short error; and whenever Decrypt returns an
    error, the plaintext it returns is the nil slice. *)
Theorem Decrypt_failures key encrypted ad :
  (length (Data key) = keySize → length encrypted < nonceSize →
   Decrypt key encrypted ad
   = Returns ([], Some (Errorf "ciphertext is too short"))) ∧
  (∀ decrypted err,
     Decrypt key encrypted ad = Returns (decrypted, Some err) → decrypted = []).
Proof.
  split.
  - intros Hk Hshort. unfold Decrypt. rewrite (NewX_ok _ Hk). unfold NonceSize.
    by rewrite (proj2 (Nat.ltb_lt _ _) Hshort).
  - intros decrypted err. unfold Decrypt, NewX, Open.
    repeat case_match; congruence.
Qed.

(** C10: with a key whose Data is not exactly 32 bytes long, Encrypt and
    Decrypt both return the cipher's key-length error and the nil slice,
    without panicking; Encrypt does so before drawing a nonce, and neither
    result depends on the plaintext, the ciphertext or the associated
    data. *)
Theorem wrong_key_length key :
  length (Data key) ≠ keySize →
  (∀ plaintext ad s,
     Encrypt key plaintext ad s = (Returns ([], Some ErrBadKeyLength), s)) ∧
  (∀ encrypted ad,
     Decrypt key encrypted ad = Returns ([], Some ErrBadKeyLength)).
Proof.
  intros Hk. split; intros; unfold Encrypt, Decrypt; by rewrite (NewX_bad _ Hk).
Qed.
End sealing_claims.

(** ** The cipher construction: test vectors and contract *)

(** RFC 8439, 2.3.2: the block function. *)
Example block_vector :
  RFC8439.Z_of_byte <$>
    take 16 (RFC8439.block (RFC8439.upfrom 0 32) 1
               (RFC8439.byte_of_Z <$> [0; 0; 0; 9; 0; 0; 0; 0x4a; 0; 0; 0; 0]%Z))
  = [0x10; 0xf1; 0xe7; 0xe4; 0xd1; 0x3b; 0x59; 0x15;
     0x50; 0x0f; 0xdd; 0x1f; 0xa3; 0x20; 0x71; 0xc4]%Z.
Proof. vm_compute. reflexivity. Qed.

(** RFC 8439, 2.5.2: Poly1305. *)
Example poly1305_vector :
  RFC8439.Z_of_byte <$>
    RFC8439.poly1305
      (RFC8439.byte_of_Z <$>
         [0x85; 0xd6; 0xbe; 0x78; 0x57; 0x55; 0x6d; 0x33;
          0x7f; 0x44; 0x52; 0xfe; 0x42; 0xd5; 0x06; 0xa8;
          0x01; 0x03; 0x80; 0x8a; 0xfb; 0x0d; 0xb2; 0xfd;
          0x4a; 0xbf; 0xf6; 0xaf; 0x41; 0x49; 0xf5; 0x1b]%Z)
      (bytes_of_string "Cryptographic Forum Research Group")
  = [0xa8; 0x06; 0x1d; 0xc1; 0x30; 0x51; 0x36; 0xc6;
     0xc2; 0x2b; 0x8b; 0xaf; 0x0c; 0x01; 0x27; 0xa9]%Z.
Proof. vm_compute. reflexivity. Qed.

(** RFC 8439, 2.8.2: the tag of the AEAD. *)
Example seal_vector :
  RFC8439.Z_of_byte <$>
    drop (length RFC8439.sunscreen)
      (RFC8439.seal (RFC8439.upfrom 0x80 32)
         (RFC8439.byte_of_Z <$> [7; 0; 0; 0; 0x40; 0x41; 0x42; 0x43; 0x44; 0x45; 0x46; 0x47]%Z)
         RFC8439.sunscreen
         (RFC8439.byte_of_Z <$>
            [0x50; 0x51; 0x52; 0x53; 0xc0; 0xc1; 0xc2; 0xc3; 0xc4; 0xc5; 0xc6; 0xc7]%Z))
  = [0x1a; 0xe1; 0x0b; 0x59; 0x4f; 0x09; 0xe2; 0x6a;
     0x7e; 0x90; 0x2e; 0xcb; 0xd0; 0x60; 0x06; 0x91]%Z.
Proof. vm_compute. reflexivity. Qed.

(** XChaCha draft, A.3.1: the tag of the extended-nonce AEAD. *)
Example xseal_vector :
  RFC8439.Z_of_byte <$>
    drop (length RFC8439.sunscreen)
      (RFC8439.xseal (RFC8439.upfrom 0x80 32) (RFC8439.upfrom 0x40 24) RFC8439.sunscreen
         (RFC8439.byte_of_Z <$>
            [0x50; 0x51; 0x52; 0x53; 0xc0; 0xc1; 0xc2; 0xc3; 0xc4; 0xc5; 0xc6; 0xc7]%Z))
  = [0xc0; 0x87; 0x59; 0x24; 0xc1; 0xc7; 0x98; 0x79;
     0x47; 0xde; 0xaf; 0xd8; 0x78; 0x0a; 0xcf; 0x49]%Z.
Proof. vm_compute. reflexivity. Qed.

Lemma length_le_bytes n v : length (RFC8439.le_bytes n v) = n.
Proof. revert v. induction n as [| n IH]; intros v; simpl; [done | by rewrite IH]. Qed.

Lemma length_quarter a b c d st :
  length (RFC8439.quarter a b c d st) = length st.
Proof. unfold RFC8439.quarter. by rewrite !length_insert. Qed.

Lemma length_double_round st :
  length (RFC8439.double_round st) = length st.
Proof. unfold RFC8439.double_round. by rewrite !length_quarter. Qed.

Lemma length_rounds20 st : length (RFC8439.rounds20 st) = length st.
Proof.
  unfold RFC8439.rounds20. generalize 10. intros n.
  induction n as [| n IH]; [done |].
  by rewrite Nat.iter_succ, length_double_round.
Qed.

Lemma length_words n bs : length (RFC8439.words n bs) = n.
Proof. unfold RFC8439.words. by rewrite length_fmap, length_seq. Qed.

Lemma length_serialized (ws : list Z) :
  length (ws ≫= RFC8439.le_bytes 4) = 4 * length ws.
Proof.
  induction ws as [| w ws IH]; [done |].
  change (length (RFC8439.le_bytes 4 w ++ (ws ≫= RFC8439.le_bytes 4))
          = 4 * S (length ws)).
  rewrite length_app, length_le_bytes, IH. lia.
Qed.

(** A block is 64 bytes, whatever the key and the nonce. *)
Lemma length_block key counter nonce :
  length (RFC8439.block key counter nonce) = 64.
Proof.
  unfold RFC8439.block.
  rewrite length_serialized, length_zip_with, length_rounds20, !length_app,
    !length_words.
  reflexivity.
Qed.

Lemma xor_blocks_step blocks key nonce counter (data : list byte) :
  data ≠ [] →
  RFC8439.xor_blocks (S blocks) key nonce counter data
  = zip_with byte_xor (take 64 data) (RFC8439.block key counter nonce)
    ++ RFC8439.xor_blocks blocks key nonce (counter + 1) (drop 64 data).
Proof. by destruct data. Qed.

Lemma xor_blocks_nil blocks key nonce counter :
  RFC8439.xor_blocks blocks key nonce counter [] = [].
Proof. by destruct blocks. Qed.

Lemma length_xor_blocks blocks key nonce counter (data : list byte) :
  (length data ≤ blocks)%nat →
  length (RFC8439.xor_blocks blocks key nonce counter data) = length data.
Proof.
  revert counter data. induction blocks as [| n IH]; intros counter data Hl.
  - destruct data; [done | cbn [length] in Hl; lia].
  - destruct (decide (data = [])) as [-> | Hne]; [done |].
    assert (0 < length data)%nat by (destruct data; [done | cbn [length]; lia]).
    rewrite xor_blocks_step by done.
    rewrite length_app, length_zip_with, length_block, IH, length_take, length_drop.
    + lia.
    + rewrite length_drop. lia.
Qed.

Lemma length_xor_stream key nonce counter data :
  length (RFC8439.xor_stream key nonce counter data) = length data.
Proof. by apply length_xor_blocks. Qed.

Lemma zip_with_byte_xor_cancel (xs ys : list byte) :
  (length xs ≤ length ys)%nat →
  zip_with byte_xor (zip_with byte_xor xs ys) ys = xs.
Proof.
  revert ys. induction xs as [| x xs IH]; intros [| y ys] Hl;
    cbn [length zip_with] in *; [done | done | lia |].
  rewrite byte_xor_cancel. f_equal. apply IH. lia.
Qed.

(** Applying the key stream twice gives the data back. *)
Lemma xor_blocks_cancel blocks key nonce counter (data : list byte) :
  (length data ≤ blocks)%nat →
  RFC8439.xor_blocks blocks key nonce counter
    (RFC8439.xor_blocks blocks key nonce counter data)
  = data.
Proof.
  revert counter data. induction blocks as [| n IH]; intros counter data Hl.
  - destruct data; [done | cbn [length] in Hl; lia].
  - destruct (decide (data = [])) as [-> | Hne]; [done |].
    assert (0 < length data)%nat as Hpos
      by (destruct data; [done | cbn [length]; lia]).
    rewrite (xor_blocks_step n key nonce counter data) by done.
    set (blk := RFC8439.block key counter nonce).
    assert (length blk = 64) as Hblk by apply length_block.
    set (head := zip_with byte_xor (take 64 data) blk).
    set (rest := RFC8439.xor_blocks n key nonce (counter + 1) (drop 64 data)).
    assert (length head = 64 `min` length data) as Hh.
    { unfold head. rewrite length_zip_with, Hblk, length_take. lia. }
    assert (length rest = length data - 64) as Hr.
    { unfold rest. rewrite length_xor_blocks; rewrite length_drop; lia. }
    assert (take 64 (head ++ rest) = head ∧ drop 64 (head ++ rest) = rest)
      as [Ht Hd].
    { destruct (decide (64 ≤ length data)%nat).
      - rewrite take_app_length', drop_app_length' by lia. split; reflexivity.
      - assert (rest = []) as -> by (apply nil_length_inv; lia).
        rewrite app_nil_r, take_ge, drop_ge by lia. split; reflexivity. }
    rewrite xor_blocks_step.
    + rewrite Ht, Hd. unfold head at 1. fold blk.
      rewrite zip_with_byte_xor_cancel by (rewrite Hblk, length_take; lia).
      unfold rest. rewrite IH by (rewrite length_drop; lia).
      apply take_drop.
    + intros E. apply (f_equal length) in E. rewrite length_app, Hh in E.
      cbn [length] in E. lia.
Qed.

Lemma xor_stream_cancel key nonce counter data :
  RFC8439.xor_stream key nonce counter (RFC8439.xor_stream key nonce counter data)
  = data.
Proof.
  unfold RFC8439.xor_stream at 1. rewrite length_xor_stream.
  by apply xor_blocks_cancel.
Qed.

Lemma length_tag key nonce ad ciphertext :
  length (RFC8439.tag key nonce ad ciphertext) = tagSize.
Proof. apply length_le_bytes. Qed.

Lemma open_seal key nonce plaintext ad :
  RFC8439.open key nonce (RFC8439.seal key nonce plaintext ad) ad = Some plaintext.
Proof.
  unfold RFC8439.open, RFC8439.seal.
  set (ct := RFC8439.xor_stream key nonce 1 plaintext).
  assert (length (ct ++ RFC8439.tag key nonce ad ct) - tagSize = length ct) as ->.
  { rewrite length_app, length_tag. lia. }
  rewrite take_app_length, drop_app_length, decide_True by done.
  unfold ct. by rewrite xor_stream_cancel.
Qed.

Lemma cipher_seal_adds_tag : @seal_adds_tag RFC8439.cipher.
Proof.
  intros k n p a _ _. simpl. unfold RFC8439.xseal, RFC8439.seal.
  by rewrite length_app, length_xor_stream, length_tag.
Qed.

Lemma cipher_open_inverts_seal : @open_inverts_seal RFC8439.cipher.
Proof. intros k n p a _ _ _. apply open_seal. Qed.

(** ** The claims on the cipher construction and the stand-ins *)

Lemma Decrypt_Encrypt_witness :
  ∃ encrypted,
    @Encrypt Reference.tape RFC8439.cipher Reference.K1 Reference.hello_world
       None (Reference.upto 40)
    = (Returns (encrypted, None), drop 24 (Reference.upto 40)) ∧
    @Decrypt RFC8439.cipher Reference.K1 encrypted None
    = Returns (Reference.hello_world, None).
Proof.
  apply (proj2 (@Decrypt_Encrypt Reference.tape RFC8439.cipher Reference.K1
                  Reference.hello_world None (Reference.upto 40)
                  cipher_seal_adds_tag cipher_open_inverts_seal)
           (Reference.upto 24)).
  - reflexivity.
  - vm_compute. discriminate.
  - reflexivity.
  - vm_compute. intros Hz. inversion Hz. discriminate.
Defined.

(** C3 as stated fails: a ciphertext sealed with present-but-empty
    associated data is opened, to the plaintext, with absent associated
    data. *)
Lemma absent_opens_present_but_empty :
  let encrypted :=
    Reference.upto 24
    ++ RFC8439.xseal (Reference.upto 32) (Reference.upto 24) Reference.hello_world [] in
  (Some [] : option (list byte)) ≠ None ∧
  @Encrypt Reference.tape RFC8439.cipher Reference.K1 Reference.hello_world
     (Some []) (Reference.upto 40)
  = (Returns (encrypted, None), drop 24 (Reference.upto 40)) ∧
  @Decrypt RFC8439.cipher Reference.K1 encrypted None
  = Returns (Reference.hello_world, None).
Proof.
  split; [discriminate |]. split; vm_compute; reflexivity.
Qed.

(** That the cipher rejects associated data of other bytes is its
    cryptographic guarantee against those who do not hold the key, not a
    fact about every input: here are two associated data of different
    bytes with the same tag, so that one opens what the other sealed. *)
Example colliding_associated_data :
  let encrypted :=
    Reference.upto 24
    ++ RFC8439.xseal (Reference.upto 32) (Reference.upto 24) Reference.hello_world
         Reference.ad_one in
  Reference.ad_one ≠ Reference.ad_other ∧
  @Encrypt Reference.tape RFC8439.cipher Reference.K1 Reference.hello_world
     (Some Reference.ad_one) (Reference.upto 40)
  = (Returns (encrypted, None), drop 24 (Reference.upto 40)) ∧
  @Decrypt RFC8439.cipher Reference.K1 encrypted (Some Reference.ad_other)
  = Returns (Reference.hello_world, None).
Proof.
  split; [| split]; vm_compute; [discriminate | reflexivity | reflexivity].
Qed.

Lemma associated_data_binding_witness :
  let sealed A :=
    Reference.upto 24
    ++ RFC8439.xseal (Reference.upto 32) (Reference.upto 24) Reference.hello_world A in
  @Decrypt RFC8439.cipher Reference.K1 (sealed [Byte.x01]) None
  = Returns ([], Some ErrOpen) ∧
  @Decrypt RFC8439.cipher Reference.K1 (sealed []) None
  = Returns (Reference.hello_world, None).
Proof.
  split.
  - apply (@associated_data_binding Reference.tape RFC8439.cipher Reference.K1
             Reference.hello_world (Some [Byte.x01]) None (Reference.upto 40) _
             (drop 24 (Reference.upto 40))).
    + apply cipher_seal_adds_tag.
    + vm_compute. reflexivity.
    + vm_compute. reflexivity.
  - apply (@associated_data_binding Reference.tape RFC8439.cipher Reference.K1
             Reference.hello_world (Some []) None (Reference.upto 40) _
             (drop 24 (Reference.upto 40))).
    + apply cipher_seal_adds_tag.
    + vm_compute. reflexivity.
    + apply cipher_open_inverts_seal.
    + reflexivity.
Defined.

Lemma Encrypt_layout_witness :
  length (Reference.upto 24
          ++ RFC8439.xseal (Reference.upto 32) (Reference.upto 24)
               Reference.hello_world [])
  = 51.
Proof.
  apply (@Encrypt_layout Reference.tape RFC8439.cipher Reference.K1
           Reference.hello_world None (Reference.upto 40) _
           (drop 24 (Reference.upto 40))).
  - apply cipher_seal_adds_tag.
  - reflexivity.
  - vm_compute. reflexivity.
  - reflexivity.
Defined.

Lemma Decrypt_failures_witness :
  @Decrypt RFC8439.cipher Reference.K1 (Reference.upto 23) None
  = Returns ([], Some (Errorf "ciphertext is too short")).
Proof.
  apply (@Decrypt_failures RFC8439.cipher Reference.K1 (Reference.upto 23) None).
  - reflexivity.
  - vm_compute. lia.
Defined.

Lemma wrong_key_length_witness :
  @Encrypt Reference.tape RFC8439.cipher {| Data := Reference.upto 31 |}
     Reference.hello_world None (Reference.upto 40)
  = (Returns ([], Some ErrBadKeyLength), Reference.upto 40) ∧
  @Decrypt RFC8439.cipher {| Data := [] |} (Reference.upto 51) None
  = Returns ([], Some ErrBadKeyLength).
Proof.
  split.
  - apply (@wrong_key_length Reference.tape RFC8439.cipher
             {| Data := Reference.upto 31 |}).
    vm_compute. discriminate.
  - apply (@wrong_key_length Reference.tape RFC8439.cipher {| Data := [] |}).
    vm_compute. discriminate.
Defined.

(** ** Encrypt over the store: what is written, and where *)


Lemma fresh_unallocated (h : Store.heap) : h !! fresh (dom h) = None.
Proof. apply not_elem_of_dom, is_fresh. Qed.

Lemma length_bytes (h : Store.heap) s : Store.valid h s → length (Store.bytes h s) = Store.len s.
Proof.
  destruct s as [| a off n c]; [done |]. intros (arr & Ha & Hn & Hc). simpl.
  rewrite Ha. simpl. rewrite length_take, length_drop. lia.
Qed.

(** Reading a slice only looks at its own array. *)
Lemma bytes_insert_other (h : Store.heap) a arr s :
  Store.valid h s → h !! a = None → Store.bytes (<[a := arr]> h) s = Store.bytes h s.
Proof.
  destruct s as [| b off n c]; [done |]. intros (old & Hb & _) Ha. simpl.
  rewrite lookup_insert_ne; [done |]. intros ->. congruence.
Qed.

(** Writing into an array of the store replaces that array, by one of the
    same length. *)
Lemma poke_insert (h : Store.heap) a i w (old : list byte) :
  Store.poke a i w (<[a := old]> h)
  = <[a := take i old ++ take (length old - i) w ++ drop (i + length w) old]> h.
Proof. unfold Store.poke. by rewrite lookup_insert_eq, insert_insert_eq. Qed.

Lemma length_poked (old w : list byte) i :
  (i ≤ length old)%nat →
  length (take i old ++ take (length old - i) w ++ drop (i + length w) old)
  = length old.
Proof. intros Hi. rewrite !length_app, !length_take, length_drop. lia. Qed.

Lemma fresh_array (k c : nat) (w : list byte) :
  (k ≤ c)%nat →
  take 0 (zeros c) ++ take (length (zeros c) - 0) (take k w)
    ++ drop (0 + length (take k w)) (zeros c)
  = fill (zeros k) w ++ zeros (c - k).
Proof.
  intros Hc. unfold fill, zeros.
  rewrite take_0, !length_replicate, Nat.sub_0_r, !drop_replicate, length_take.
  rewrite app_nil_l, take_take, <- app_assoc, <- replicate_add.
  f_equal; [f_equal; lia | f_equal; lia].
Qed.
Section refinement.
Context `{Entropy, XChaCha20Poly1305}.

(** [Store.NewNonce] is [NewNonce] with the nonce placed in a new array. *)
Lemma NewNonce_refines c o (h : Store.heap) s :
  let a := fresh (dom h) in
  let n := Z.to_nat (Z.of_nat nonceSize + c + o) in
  Store.NewNonce c o h s =
    match NewNonce c o s with
    | (Returns (nonce, err), s') =>
        (Returns (Store.Slice a 0 nonceSize n, err),
         <[a := nonce ++ zeros (n - nonceSize)]> h, s')
    | (Panics v, s') => (Panics v, h, s')
    end.
Proof.
  intros a n. unfold Store.NewNonce, NewNonce.
  destruct (Z.ltb_spec (Z.of_nat nonceSize + c + o) (Z.of_nat nonceSize)); [done |].
  unfold Store.make. fold a n. cbn [Store.len]. rewrite length_zeros.
  destruct (rand_Read nonceSize s) as [[w err] s'].
  assert (Store.store (Store.Slice a 0 nonceSize n) w (<[a := zeros n]> h)
          = <[a := fill (zeros nonceSize) w ++ zeros (n - nonceSize)]> h) as ->.
  { unfold Store.store. rewrite poke_insert, fresh_array; [done | lia]. }
  assert (Store.bytes (<[a := fill (zeros nonceSize) w ++ zeros (n - nonceSize)]> h)
            (Store.Slice a 0 nonceSize n) = fill (zeros nonceSize) w) as ->.
  { unfold Store.bytes. rewrite lookup_insert_eq. simpl default. rewrite drop_0.
    apply take_app_length'. by rewrite length_fill, length_zeros. }
  destruct err; [done |]. by case_match.
Qed.

(** [Store.Seal] appending to a new nonce writes the sealed bytes into the
    nonce's own array, which then holds what [Seal] returns. *)
Lemma Seal_into_nonce (h : Store.heap) a aead nonce plaintext ad :
  seal_adds_tag →
  h !! a = None → Store.valid h plaintext → Store.valid h ad →
  length (aead_key aead) = keySize → length nonce = nonceSize →
  let n := nonceSize + Store.len plaintext + tagSize in
  let h1 := <[a := nonce ++ zeros (n - nonceSize)]> h in
  Store.Seal aead (Store.Slice a 0 nonceSize n) (Store.Slice a 0 nonceSize n)
    plaintext ad h1
  = match Seal aead nonce nonce (Store.bytes h plaintext) (Store.bytes h ad) with
    | Returns encrypted => (Returns (Store.Slice a 0 n n), <[a := encrypted]> h)
    | Panics v => (Panics v, h1)
    end.
Proof.
  intros Htag Ha Hp Had Hk Hn n h1. unfold Store.Seal, Seal.
  set (arr := nonce ++ zeros (n - nonceSize)) in h1. subst h1.
  rewrite Hn, (length_bytes _ _ Hp). cbn [Store.len]. rewrite Nat.eqb_refl.
  cbn [negb].
  destruct (Z.ltb_spec maxPlaintext (Z.of_nat (Store.len plaintext))); [done |].
  assert (Store.bytes (<[a := arr]> h) (Store.Slice a 0 nonceSize n) = nonce) as ->.
  { unfold Store.bytes, arr. rewrite lookup_insert_eq. simpl default. rewrite drop_0.
    by apply take_app_length'. }
  rewrite !(bytes_insert_other h) by done.
  set (sealed := xseal (aead_key aead) nonce (Store.bytes h plaintext) (Store.bytes h ad)).
  assert (length sealed = n - nonceSize) as Hs.
  { unfold sealed. rewrite Htag, (length_bytes _ _ Hp) by done. lia. }
  unfold Store.sliceForAppend. cbn [Store.len Store.cap].
  replace (nonceSize + (Store.len plaintext + tagSize)) with n by lia.
  rewrite Nat.leb_refl. cbn [Store.from].
  assert (Store.InexactOverlap (Store.Slice a (0 + nonceSize) (n - nonceSize) (n - nonceSize))
            plaintext = false) as ->.
  { destruct plaintext as [| b off m c]; [done |]. destruct Hp as (old & Hb & _).
    unfold Store.InexactOverlap. rewrite bool_decide_eq_false_2; [done |].
    intros ->. congruence. }
  f_equal. unfold Store.store. rewrite poke_insert. f_equal.
  rewrite (take_ge sealed) by lia.
  assert (length arr = n) as Harr.
  { unfold arr. rewrite length_app, length_zeros. lia. }
  rewrite Harr, Hs. unfold arr at 1.
  rewrite (take_app_length' nonce) by done.
  rewrite take_ge by lia.
  rewrite drop_ge by lia. by rewrite app_nil_r.
Qed.

Lemma nonce_capacity (m : nat) :
  Z.to_nat (Z.of_nat nonceSize + Z.of_nat m + Z.of_nat tagSize)
  = nonceSize + m + tagSize.
Proof. lia. Qed.

(** The store after [Store.Encrypt] is the store before it, with at most
    one new array; a returned ciphertext is the whole of that array. *)
Lemma Encrypt_allocates key plaintext ad (h : Store.heap) s o h' s' :
  Store.Encrypt key plaintext ad h s = (o, h', s') →
  (h' = h ∨ ∃ arr, h' = <[fresh (dom h) := arr]> h) ∧
  (∀ encrypted, o = Returns (encrypted, None) →
     ∃ arr, encrypted = Store.Slice (fresh (dom h)) 0 (length arr) (length arr) ∧
            h' = <[fresh (dom h) := arr]> h).
Proof.
  unfold Store.Encrypt.
  destruct (NewX (Store.bytes h key)) as [[aead |] [err |]];
    try (intros [= <- <- <-]; split; [by left | intros ? [=]]).
  rewrite NewNonce_refines. unfold Overhead. rewrite nonce_capacity.
  set (a := fresh (dom h)). set (n := nonceSize + Store.len plaintext + tagSize).
  destruct (NewNonce _ _ s) as [[[nonce [err |]] | v] s1] eqn:Hn.
  - intros [= <- <- <-]. split; [right; eauto | intros ? [=]].
  - apply NewNonce_inv in Hn as (_ & _ & _ & Hlen & _).
    set (arr := nonce ++ zeros (n - nonceSize)).
    assert (length arr = n) as Harr.
    { unfold arr. rewrite length_app, length_zeros. lia. }
    assert (∀ x, ∃ r h2,
              Store.Seal aead (Store.Slice a 0 nonceSize n) (Store.Slice a 0 nonceSize n)
                plaintext x (<[a := arr]> h) = (r, h2) ∧
              ∃ arr2, length arr2 = n ∧ h2 = <[a := arr2]> h ∧
                      ∀ e, r = Returns e → e = Store.Slice a 0 n n) as HS.
    { intros x. unfold Store.Seal. cbn [Store.len]. rewrite Nat.eqb_refl. cbn [negb].
      case_match;
        [eexists _, _; split; [done |]; exists arr; split; [done |]; split; [done |];
         by intros e [=] |].
      unfold Store.sliceForAppend. cbn [Store.len Store.cap].
      replace (nonceSize + (Store.len plaintext + tagSize)) with n by lia.
      rewrite Nat.leb_refl. cbn [Store.from].
      case_match;
        [eexists _, _; split; [done |]; exists arr; split; [done |]; split; [done |];
         by intros e [=] |].
      eexists _, _. split; [done |]. unfold Store.store. rewrite poke_insert.
      eexists. split; [| split; [done |]].
      + rewrite length_poked; [done | lia].
      + by intros e [= <-]. }
    intros Hres.
    assert (∃ x, (let '(sealed, h'') :=
                    Store.Seal aead (Store.Slice a 0 nonceSize n)
                      (Store.Slice a 0 nonceSize n) plaintext x (<[a := arr]> h) in
                  match sealed with
                  | Panics v => (Panics v, h'', s1)
                  | Returns encrypted => (Returns (encrypted, None), h'', s1)
                  end) = (o, h', s')) as [x Hx] by (destruct ad; eauto).
    clear Hres. destruct (HS x) as (r & h2 & HSx & arr2 & Hl2 & -> & Hr).
    rewrite HSx in Hx.
    destruct r as [e | v]; injection Hx as <- <- <-.
    + split; [right; eauto |]. intros ? [= <-]. exists arr2.
      by rewrite Hl2, (Hr e eq_refl).
    + split; [right; eauto | intros ? [=]].
  - intros [= <- <- <-]. split; [by left | intros ? [=]].
Qed.

(** [Store.Encrypt] computes what [Encrypt] computes: its result, read in
    the store it leaves, is the result of [Encrypt] on the bytes of its
    arguments. *)
Lemma Encrypt_refines key plaintext ad (h : Store.heap) s o h' s' :
  seal_adds_tag →
  Store.valid h plaintext → Store.valid_opt h ad →
  Store.Encrypt key plaintext ad h s = (o, h', s') →
  Encrypt {| Data := Store.bytes h key |} (Store.bytes h plaintext)
    (Store.bytes h <$> ad) s
  = (Store.result_bytes h' o, s').
Proof.
  intros Htag Hp Had. unfold Store.Encrypt, Encrypt. cbn [Data].
  destruct (NewX (Store.bytes h key)) as [[aead |] [err |]] eqn:HX;
    try by intros [= <- <- <-].
  apply NewX_inv in HX as [-> Hk].
  rewrite NewNonce_refines, (length_bytes _ _ Hp). unfold Overhead.
  rewrite nonce_capacity.
  set (a := fresh (dom h)). set (n := nonceSize + Store.len plaintext + tagSize).
  destruct (NewNonce _ _ s) as [[[nonce [err |]] | v] s1] eqn:Hn;
    try by intros [= <- <- <-].
  apply NewNonce_inv in Hn as (_ & _ & _ & Hlen & _).
  assert (∀ x y,
            Store.valid h x → Store.bytes h x = y →
            (let '(sealed, h'') :=
               Store.Seal {| aead_key := Store.bytes h key |} (Store.Slice a 0 nonceSize n)
                 (Store.Slice a 0 nonceSize n) plaintext x
                 (<[a := nonce ++ zeros (n - nonceSize)]> h) in
             match sealed with
             | Panics v => (Panics v, h'', s1)
             | Returns encrypted => (Returns (encrypted, None), h'', s1)
             end) = (o, h', s') →
            match Seal {| aead_key := Store.bytes h key |} nonce nonce (Store.bytes h plaintext) y with
            | Panics v => (Panics v, s1)
            | Returns encrypted => (Returns (encrypted, None), s1)
            end = (Store.result_bytes h' o, s')) as HS.
  { intros x y Hx <-.
    pose proof (Seal_into_nonce h a {| aead_key := Store.bytes h key |} nonce
                  plaintext x Htag (fresh_unallocated h) Hp Hx Hk Hlen) as E.
    cbv zeta in E. fold n in E. rewrite E. clear E.
    unfold Seal. rewrite Hlen, Nat.eqb_refl. cbn [negb].
    destruct (maxPlaintext <? Z.of_nat (length (Store.bytes h plaintext)))%Z;
      [by intros [= <- <- <-] |].
    intros [= <- <- <-]. unfold Store.result_bytes. cbn [Store.bytes].
    rewrite lookup_insert_eq. simpl default. rewrite drop_0, take_ge; [done |].
    rewrite length_app, Htag, Hlen, (length_bytes _ _ Hp) by done. lia. }
  destruct ad as [x |]; simpl.
  - by apply HS.
  - by apply (HS Store.NilSlice).
Qed.

(** C9: Encrypt leaves every array of the store as it was, so the key's
    buffer and the plaintext buffer hold the same bytes after the call as
    before it; and the ciphertext it returns is the whole of one array that
    did not exist before, the only change to the store. *)
Theorem Encrypt_frame key plaintext ad (h : Store.heap) s o h' s' :
  Store.valid h key → Store.valid h plaintext →
  Store.Encrypt key plaintext ad h s = (o, h', s') →
  (∀ a arr, h !! a = Some arr → h' !! a = Some arr) ∧
  Store.bytes h' key = Store.bytes h key ∧
  Store.bytes h' plaintext = Store.bytes h plaintext ∧
  (∀ encrypted, o = Returns (encrypted, None) →
     ∃ a, h !! a = None ∧
          encrypted = Store.Slice a 0 (Store.len encrypted) (Store.len encrypted) ∧
          h' = <[a := Store.bytes h' encrypted]> h).
Proof.
  intros Hk Hp Henc.
  destruct (Encrypt_allocates _ _ _ _ _ _ _ _ Henc) as [Hh Hret].
  pose proof (fresh_unallocated h) as Hfresh.
  assert (∀ x, Store.valid h x → Store.bytes h' x = Store.bytes h x) as Hread.
  { intros x Hx. destruct Hh as [-> | [arr ->]]; [done |].
    by apply bytes_insert_other. }
  repeat split; [| by apply Hread | by apply Hread |].
  - intros a arr Ha. destruct Hh as [-> | [new ->]]; [done |].
    rewrite lookup_insert_ne; [done | congruence].
  - intros encrypted ->. destruct (Hret _ eq_refl) as (arr & -> & ->).
    exists (fresh (dom h)). split; [done |]. split; [done |].
    cbn [Store.bytes]. rewrite lookup_insert_eq. simpl default.
    by rewrite drop_0, firstn_all.
Qed.
End refinement.

Example Store_Encrypt_hello_world :
  (@Store.Encrypt Reference.tape RFC8439.cipher
     (Store.Slice 1%positive 0 32 32) (Store.Slice 2%positive 0 11 11) None
     example_store (Reference.upto 40)).1.1
  = Returns (Store.Slice 3%positive 0 51 51, None).
Proof. vm_compute. reflexivity. Qed.

Lemma Encrypt_frame_witness :
  let key := Store.Slice 1%positive 0 32 32 in
  let plaintext := Store.Slice 2%positive 0 11 11 in
  let h' :=
    (@Store.Encrypt Reference.tape RFC8439.cipher key plaintext None
       example_store (Reference.upto 40)).1.2 in
  Store.bytes h' key = Reference.upto 32 ∧
  Store.bytes h' plaintext = Reference.hello_world.
Proof.
  intros key plaintext h'.
  destruct (@Encrypt_frame Reference.tape RFC8439.cipher key plaintext None
              example_store (Reference.upto 40)
              (@Store.Encrypt Reference.tape RFC8439.cipher key plaintext None
                 example_store (Reference.upto 40)).1.1
              h'
              (@Store.Encrypt Reference.tape RFC8439.cipher key plaintext None
                 example_store (Reference.upto 40)).2)
    as (_ & Hk & Hp & _).
  - exists (Reference.upto 32). split; [reflexivity |]. vm_compute. lia.
  - exists Reference.hello_world. split; [reflexivity |]. vm_compute. lia.
  - by destruct (Store.Encrypt _ _ _ _ _) as [[??]?].
  - split; [exact Hk | exact Hp].
Defined.

(** * Further properties *)

(** ** Further properties of key derivation *)

Section derivation_results.
Context `{PasswordValidator, Argon2}.


(** X2: the cost parameters reach Argon2id through uint32 and uint8
    conversions, so NewIDKey cannot tell params apart that differ by
    multiples of 2^32 in T, M or L or by multiples of 256 in P. *)
Theorem NewIDKey_params_wrap params password salt (a b c d : Z) :
  NewIDKey {| T := T params + a * 2 ^ 32; M := M params + b * 2 ^ 32;
              P := P params + c * 2 ^ 8; L := L params + d * 2 ^ 32 |}
    password salt
  = NewIDKey params password salt.
Proof.
  unfold NewIDKey, uint32, uint8. cbn [T M P L].
  by rewrite !Z_mod_plus_full.
Qed.
End derivation_results.

Lemma length_stretch material rounds out :
  length (Reference.stretch material rounds out) = out.
Proof.
  revert out. induction rounds as [| r IH]; intros out; simpl.
  - apply length_zeros.
  - rewrite length_app, length_take, IH. lia.
Qed.

Lemma stretched_idkey_length : @idkey_length Reference.stretched.
Proof. intros pw salt t m p l. apply length_stretch. Qed.

Section derived_keys.
Context `{PasswordValidator, Argon2, Entropy, XChaCha20Poly1305}.

(** X3: a key derived by NewIDKey is as long as uint32(params.L) says.
    With L = 32 (as in DefaultParams) the cipher accepts it; with any other
    length every Encrypt and Decrypt under that key returns the cipher's
    key-length error. *)
Theorem derived_key_length params password salt key :
  idkey_length →
  NewIDKey params password salt = (Some key, None) →
  length (Data key) = Z.to_nat (uint32 (L params)) ∧
  (uint32 (L params) = 32%Z →
   NewX (Data key) = (Some {| aead_key := Data key |}, None)) ∧
  (uint32 (L params) ≠ 32%Z →
   (∀ plaintext ad s,
      Encrypt key plaintext ad s = (Returns ([], Some ErrBadKeyLength), s)) ∧
   (∀ encrypted ad,
      Decrypt key encrypted ad = Returns ([], Some ErrBadKeyLength))).
Proof.
  intros Hlen Hkey. apply NewIDKey_success in Hkey as (_ & _ & ->). cbn [Data].
  set (k := IDKey _ _ _ _ _ _).
  assert (length k = Z.to_nat (uint32 (L params))) as Hk by apply Hlen.
  split; [done |]. split.
  - intros HL. apply NewX_ok. rewrite Hk, HL. reflexivity.
  - intros HL.
    assert (length k ≠ keySize) as Hbad.
    { rewrite Hk. unfold keySize. intros E.
      assert (0 ≤ uint32 (L params))%Z by (unfold uint32; apply Z.mod_pos_bound; lia).
      lia. }
    split; intros; unfold Encrypt, Decrypt; cbn [Data]; by rewrite (NewX_bad _ Hbad).
Qed.
End derived_keys.

Lemma derived_key_length_witness :
  let key := {| Data := bytes_of_string "Tr0ub4dor&3xample!Long" ++ Reference.upto 10 |} in
  length (Data key) = 32 ∧
  @NewX (Data key) = (Some {| aead_key := Data key |}, None).
Proof.
  intros key.
  destruct (@derived_key_length Reference.long_enough Reference.stretched
              Reference.tape RFC8439.cipher
              DefaultParams "Tr0ub4dor&3xample!Long" (Reference.upto 32) key
              stretched_idkey_length eq_refl) as (Hl & Hx & _).
  split; [exact Hl | exact (Hx eq_refl)].
Defined.

Section randomness_results.
Context `{Entropy}.

(** X4: NewRandom refuses size 0 with ErrInvalidRandomSize and the nil
    slice, without touching the generator; a negative size panics in make;
    for a positive size it reads once and returns a buffer of exactly that
    many bytes together with the reader's error, whatever the reader wrote:
    the bytes written, then zeros. *)
Theorem NewRandom_cases size s :
  (size = 0%Z →
   NewRandom size s = (Returns ([], Some ErrInvalidRandomSize), s)) ∧
  ((size < 0)%Z → NewRandom size s = (Panics makeslice_len, s)) ∧
  ((0 < size)%Z →
   let n := Z.to_nat size in
   let '(w, err, s') := rand_Read n s in
   NewRandom size s = (Returns (fill (zeros n) w, err), s') ∧
   length (fill (zeros n) w) = n ∧
   (length w = n → fill (zeros n) w = w)).
Proof.
  split; [| split].
  - by intros ->.
  - intros Hneg. unfold NewRandom.
    destruct (Z.eqb_spec size 0); [lia |].
    by destruct (Z.ltb_spec size 0); [| lia].
  - intros Hpos n.
    destruct (rand_Read n s) as [[w err] s'] eqn:Hr.
    split; [| split].
    + rewrite <- (Z2Nat.id size) by lia. fold n.
      apply NewRandom_returns; [lia | done].
    + by rewrite length_fill, length_zeros.
    + intros Hw. apply fill_exact. by rewrite length_zeros.
Qed.

(** X5: NewSalt reads 32 bytes once. It returns the buffer, always exactly
    32 bytes long, when the reader reports no error, and panics with the
    reader's error wrapped in ErrInvalidSalt when it does; the length check
    after generation never fires. *)
Theorem NewSalt_outcome s :
  (let '(w, err, s') := rand_Read saltSize s in
   NewSalt s =
     match err with
     | None => (Returns (fill (zeros saltSize) w), s')
     | Some e => (Panics (PanicError (Wrap ErrInvalidSalt (Error e))), s')
     end) ∧
  (∀ salt s', NewSalt s = (Returns salt, s') → length salt = saltSize).
Proof.
  assert (let '(w, err, s') := rand_Read saltSize s in
          NewSalt s =
            match err with
            | None => (Returns (fill (zeros saltSize) w), s')
            | Some e => (Panics (PanicError (Wrap ErrInvalidSalt (Error e))), s')
            end) as Hout.
  { destruct (rand_Read saltSize s) as [[w err] s'] eqn:Hr. unfold NewSalt.
    rewrite (NewRandom_returns saltSize s w err s') by done.
    destruct err as [e |]; [done |].
    by rewrite validateSaltLen_ok by (by rewrite length_fill, length_zeros). }
  split; [done |]. intros salt s' Hs.
  destruct (rand_Read saltSize s) as [[w err] s1].
  rewrite Hout in Hs. destruct err; [discriminate |].
  injection Hs as <- <-. by rewrite length_fill, length_zeros.
Qed.
End randomness_results.

Section compositions.
Context `{PasswordValidator, Argon2, Entropy, XChaCha20Poly1305}.


(** X7: whenever NewSessionKey returns, on success or with the reader's
    error, the key it returns is non-nil with an empty Data, the salt was 32
    bytes long, and the generator was read once for 32 bytes, the error
    returned being the reader's. *)
Theorem NewSessionKey_returns salt s key err s' :
  NewSessionKey salt s = (Returns (key, err), s') →
  key = Some {| Data := [] |} ∧
  length salt = saltSize ∧
  ∃ w, rand_Read keySize s = (w, err, s').
Proof.
  unfold NewSessionKey, validateSaltLen.
  destruct (Nat.eqb_spec (length salt) saltSize) as [Hl | Hl]; [| discriminate].
  cbn [negb].
  destruct (rand_Read keySize s) as [[w e] s1] eqn:Hr.
  rewrite (NewRandom_returns keySize s w e s1) by done.
  destruct e; intros [= <- <- <-]; eauto.
Qed.

(** X8: a key returned by NewSessionKey cannot be used: every Encrypt and
    every Decrypt under it returns the cipher's key-length error and no
    bytes. *)
Theorem session_key_unusable salt s key err s' :
  NewSessionKey salt s = (Returns (Some key, err), s') →
  (∀ plaintext ad s2,
     Encrypt key plaintext ad s2 = (Returns ([], Some ErrBadKeyLength), s2)) ∧
  (∀ encrypted ad,
     Decrypt key encrypted ad = Returns ([], Some ErrBadKeyLength)).
Proof.
  intros Hs.
  assert (Data key = []) as Hk.
  { unfold NewSessionKey in Hs. destruct (validateSaltLen salt); [| discriminate].
    destruct (NewRandom (Z.of_nat keySize) s) as [[[r [e |]] | v] s1];
      try discriminate; by injection Hs as <- _ _. }
  split; intros; unfold Encrypt, Decrypt; rewrite Hk; reflexivity.
Qed.
End compositions.


Lemma NewSessionKey_returns_witness :
  ∃ w, @rand_Read Reference.tape keySize (Reference.upto 8)
       = (w, Some (Foreign "unexpected EOF"), []).
Proof.
  apply (@NewSessionKey_returns Reference.tape (zeros 32) (Reference.upto 8)
           (Some {| Data := [] |}) (Some (Foreign "unexpected EOF")) []).
  reflexivity.
Defined.

Lemma session_key_unusable_witness :
  @Encrypt Reference.tape RFC8439.cipher {| Data := [] |} Reference.hello_world
    None (Reference.upto 40)
  = (Returns ([], Some ErrBadKeyLength), Reference.upto 40).
Proof.
  apply (@session_key_unusable Reference.tape RFC8439.cipher (zeros 32)
           (Reference.upto 40) {| Data := [] |} None (drop 32 (Reference.upto 40))).
  reflexivity.
Defined.

Section nonce_results.
Context `{Entropy}.


End nonce_results.


Section sealing_results.
Context `{Entropy, XChaCha20Poly1305}.

(** [NewNonce] as [Encrypt] calls it: the capacity is never negative. *)
Lemma NewNonce_in_Encrypt (plaintext : list byte) s :
  NewNonce (Z.of_nat (length plaintext)) (Z.of_nat tagSize) s =
    let '(w, err, s') := rand_Read nonceSize s in
    let nonce := fill (zeros nonceSize) w in
    match err with
    | Some _ => (Returns (nonce, err), s')
    | None =>
        if (0 <? Byte.to_N (foldl byte_or Byte.x00 nonce))%N
        then (Returns (nonce, None), s')
        else (Returns (nonce, Some (Errorf "got invalid all-zero nonce")), s')
    end.
Proof.
  unfold NewNonce.
  destruct (Z.ltb_spec (Z.of_nat nonceSize + Z.of_nat (length plaintext)
                        + Z.of_nat tagSize) (Z.of_nat nonceSize)); [lia |].
  by rewrite length_zeros.
Qed.

(** X11: under a 32-byte key, Encrypt returns no ciphertext when the nonce
    cannot be drawn: a reader error is returned as it is, and a nonce of 24
    zero bytes gives the all-zero error; the output is the nil slice in
    both cases. *)
Theorem Encrypt_nonce_failures key plaintext ad s w s' :
  length (Data key) = keySize →
  (∀ e, rand_Read nonceSize s = (w, Some e, s') →
        Encrypt key plaintext ad s = (Returns ([], Some e), s')) ∧
  (rand_Read nonceSize s = (w, None, s') →
   Forall (λ x, x = Byte.x00) (fill (zeros nonceSize) w) →
   Encrypt key plaintext ad s
   = (Returns ([], Some (Errorf "got invalid all-zero nonce")), s')).
Proof.
  intros Hk. split.
  - intros e Hr. unfold Encrypt. rewrite (NewX_ok _ Hk). unfold Overhead.
    by rewrite NewNonce_in_Encrypt, Hr.
  - intros Hr Hz. unfold Encrypt. rewrite (NewX_ok _ Hk). unfold Overhead.
    rewrite NewNonce_in_Encrypt, Hr. cbv zeta.
    assert (foldl byte_or Byte.x00 (fill (zeros nonceSize) w) = Byte.x00) as ->
      by by apply foldl_byte_or_zero.
    reflexivity.
Qed.

(** X12: under a 32-byte key, Encrypt reads the generator exactly once,
    for 24 bytes, whatever it then returns (ciphertext, error or panic):
    the generator is left in the state after that one read. *)
Theorem Encrypt_reads_once key plaintext ad s :
  length (Data key) = keySize →
  (Encrypt key plaintext ad s).2 = (rand_Read nonceSize s).2.
Proof.
  intros Hk. unfold Encrypt. rewrite (NewX_ok _ Hk). unfold Overhead.
  rewrite NewNonce_in_Encrypt.
  destruct (rand_Read nonceSize s) as [[w err] s']. cbv zeta.
  destruct err; [done |].
  destruct (0 <? _)%N; [| done].
  by destruct ad; (destruct (Seal _ _ _ _ _)).
Qed.

(** X13: the first 24 bytes of a ciphertext returned by Encrypt are the
    nonce drawn by its one read of the generator, and they are never all
    zero. *)
Theorem Encrypt_nonce_drawn key plaintext ad s encrypted s' :
  Encrypt key plaintext ad s = (Returns (encrypted, None), s') →
  ∃ w, rand_Read nonceSize s = (w, None, s') ∧
       take nonceSize encrypted = fill (zeros nonceSize) w ∧
       (length w = nonceSize → take nonceSize encrypted = w) ∧
       ¬ Forall (λ x, x = Byte.x00) (take nonceSize encrypted).
Proof.
  intros Henc. apply Encrypt_inv in Henc as (_ & _ & nonce & Hn & ->).
  apply NewNonce_inv in Hn as (w & Hr & -> & Hlen & Hnz).
  rewrite take_app_length' by done.
  exists w. repeat split; [done | | done].
  intros Hw. apply fill_exact. by rewrite length_zeros.
Qed.

(** X14: the errors Decrypt returns, in the order it checks: the cipher's
    key-length error exactly for a key that is not 32 bytes, then the
    too-short error exactly for an input under 24 bytes, and otherwise only
    the cipher's authentication error. *)
Theorem Decrypt_error_cases key encrypted ad decrypted err :
  Decrypt key encrypted ad = Returns (decrypted, Some err) →
  (err = ErrBadKeyLength ∧ length (Data key) ≠ keySize) ∨
  (err = Errorf "ciphertext is too short" ∧
   length (Data key) = keySize ∧ (length encrypted < nonceSize)%nat) ∨
  (err = ErrOpen ∧
   length (Data key) = keySize ∧ (nonceSize ≤ length encrypted)%nat).
Proof.
  unfold Decrypt.
  destruct (decide (length (Data key) = keySize)) as [Hk | Hk];
    [rewrite (NewX_ok _ Hk) | rewrite (NewX_bad _ Hk)].
  - unfold NonceSize.
    destruct (Nat.ltb_spec (length encrypted) nonceSize) as [Hs | Hs].
    + intros [= <- <-]. right. left. done.
    + intros Hopen. right. right. split; [| done].
      destruct ad; unfold Open in Hopen; repeat case_match; congruence.
  - intros [= <- <-]. by left.
Qed.

(** X15: under a 32-byte key, an input of 24 to 39 bytes, which has a
    nonce but no room for a tag, is refused with the authentication error
    and no plaintext, without consulting the cipher. *)
Theorem Decrypt_short_body key encrypted ad :
  length (Data key) = keySize →
  (nonceSize ≤ length encrypted < nonceSize + tagSize)%nat →
  Decrypt key encrypted ad = Returns ([], Some ErrOpen).
Proof.
  intros Hk [Hlo Hhi]. unfold Decrypt. rewrite (NewX_ok _ Hk). unfold NonceSize.
  destruct (Nat.ltb_spec (length encrypted) nonceSize); [lia |].
  assert (∀ a, Open {| aead_key := Data key |} [] (take nonceSize encrypted)
                 (drop nonceSize encrypted) a = Returns ([], Some ErrOpen)) as HO.
  { intros a. unfold Open. rewrite length_take, length_drop.
    rewrite Nat.min_l by done. rewrite Nat.eqb_refl. cbn [negb].
    by destruct (Nat.ltb_spec (length encrypted - nonceSize) tagSize); [| lia]. }
  destruct ad; apply HO.
Qed.

(** X16: Decrypt returns a plaintext only if the key is 32 bytes long, the
    input holds a nonce and a tag, and the cipher opens the bytes after the
    first 24 under those 24 as nonce and the associated data supplied
    (none for an absent one) to exactly that plaintext. *)
Theorem Decrypt_returns_authenticated key encrypted ad decrypted :
  Decrypt key encrypted ad = Returns (decrypted, None) →
  length (Data key) = keySize ∧
  (nonceSize + tagSize ≤ length encrypted)%nat ∧
  xopen (Data key) (take nonceSize encrypted) (drop nonceSize encrypted)
    (ad_bytes ad) = Some decrypted.
Proof.
  unfold Decrypt.
  destruct (decide (length (Data key) = keySize)) as [Hk | Hk];
    [rewrite (NewX_ok _ Hk) | by rewrite (NewX_bad _ Hk)].
  unfold NonceSize.
  destruct (Nat.ltb_spec (length encrypted) nonceSize) as [Hs | Hs]; [discriminate |].
  assert (∀ a, Open {| aead_key := Data key |} [] (take nonceSize encrypted)
                 (drop nonceSize encrypted) a = Returns (decrypted, None) →
               (nonceSize + tagSize ≤ length encrypted)%nat ∧
               xopen (Data key) (take nonceSize encrypted)
                 (drop nonceSize encrypted) a = Some decrypted) as HO.
  { intros a. unfold Open. rewrite length_drop.
    destruct (negb _); [discriminate |].
    destruct (Nat.ltb_spec (length encrypted - nonceSize) tagSize); [discriminate |].
    destruct (_ <? _)%Z; [discriminate |]. cbn [aead_key].
    destruct (xopen _ _ _ _) as [p |]; [| discriminate].
    intros [= <-]. split; [lia | done]. }
  intros Hopen. split; [done |]. destruct ad; by apply HO.
Qed.

End sealing_results.

Section pipeline.
Context `{PasswordValidator, Argon2, Entropy, XChaCha20Poly1305}.

(** X17: derive, encrypt, derive again, decrypt. With params whose L is 32,
    a key derived by NewIDKey encrypts any plaintext within the cipher's
    limit once a nonce that is not all zero is drawn, the ciphertext is
    24 + len(plaintext) + 16 bytes long, and every key derived again from
    the same params, password and salt decrypts it to the plaintext. *)
Theorem derive_encrypt_decrypt params password salt key plaintext ad s w s' :
  idkey_length → seal_adds_tag → open_inverts_seal →
  uint32 (L params) = 32%Z →
  NewIDKey params password salt = (Some key, None) →
  (Z.of_nat (length plaintext) ≤ maxPlaintext)%Z →
  rand_Read nonceSize s = (w, None, s') →
  ¬ Forall (λ x, x = Byte.x00) (fill (zeros nonceSize) w) →
  ∃ encrypted,
    Encrypt key plaintext ad s = (Returns (encrypted, None), s') ∧
    length encrypted = 24 + length plaintext + 16 ∧
    ∀ key2, NewIDKey params password salt = (Some key2, None) →
            Decrypt key2 encrypted ad = Returns (plaintext, None).
Proof.
  intros Hlen Htag Hinv HL Hkey Hp Hr Hnz.
  assert (length (Data key) = keySize) as Hk.
  { apply NewIDKey_success in Hkey as (_ & _ & ->). cbn [Data].
    rewrite Hlen, HL. reflexivity. }
  assert (length (fill (zeros nonceSize) w) = nonceSize) as Hn
    by by rewrite length_fill, length_zeros.
  eexists. split; [by apply (Encrypt_returns _ _ _ _ w s') |]. split.
  - rewrite length_app, Htag, Hn by done. unfold nonceSize, tagSize. lia.
  - intros key2 Hkey2.
    assert (key2 = key) as ->.
    { apply NewIDKey_success in Hkey as (_ & _ & ->).
      by apply NewIDKey_success in Hkey2 as (_ & _ & ->). }
    rewrite Decrypt_sealed by done. by rewrite Hinv.
Qed.
End pipeline.

Lemma Encrypt_nonce_failures_witness :
  @Encrypt Reference.tape RFC8439.cipher Reference.K1 Reference.hello_world None
    (zeros 40)
  = (Returns ([], Some (Errorf "got invalid all-zero nonce")), zeros 16).
Proof.
  apply (@Encrypt_nonce_failures Reference.tape RFC8439.cipher Reference.K1
           Reference.hello_world None (zeros 40) (zeros 24) (zeros 16)).
  - reflexivity.
  - reflexivity.
  - vm_compute. repeat constructor.
Defined.

Lemma Encrypt_reads_once_witness :
  (@Encrypt Reference.tape RFC8439.cipher Reference.K1 Reference.hello_world None
     (Reference.upto 40)).2
  = drop 24 (Reference.upto 40).
Proof.
  apply (@Encrypt_reads_once Reference.tape RFC8439.cipher Reference.K1
           Reference.hello_world None (Reference.upto 40)).
  reflexivity.
Defined.

Lemma Encrypt_nonce_drawn_witness :
  ∃ w, @rand_Read Reference.tape nonceSize (Reference.upto 40)
       = (w, None, drop 24 (Reference.upto 40)) ∧
       take nonceSize
         (Reference.upto 24
          ++ RFC8439.xseal (Reference.upto 32) (Reference.upto 24)
               Reference.hello_world [])
       = fill (zeros nonceSize) w ∧
       (length w = nonceSize →
        take nonceSize
          (Reference.upto 24
           ++ RFC8439.xseal (Reference.upto 32) (Reference.upto 24)
                Reference.hello_world [])
        = w) ∧
       ¬ Forall (λ x, x = Byte.x00)
           (take nonceSize
              (Reference.upto 24
               ++ RFC8439.xseal (Reference.upto 32) (Reference.upto 24)
                    Reference.hello_world [])).
Proof.
  apply (@Encrypt_nonce_drawn Reference.tape RFC8439.cipher Reference.K1
           Reference.hello_world None (Reference.upto 40)).
  vm_compute. reflexivity.
Defined.

Lemma Decrypt_error_cases_witness :
  (ErrOpen = ErrBadKeyLength ∧ length (Data Reference.K1) ≠ keySize) ∨
  (ErrOpen = Errorf "ciphertext is too short" ∧
   length (Data Reference.K1) = keySize ∧ (length (zeros 40) < nonceSize)%nat) ∨
  (ErrOpen = ErrOpen ∧
   length (Data Reference.K1) = keySize ∧ (nonceSize ≤ length (zeros 40))%nat).
Proof.
  apply (@Decrypt_error_cases RFC8439.cipher Reference.K1 (zeros 40) None []).
  vm_compute. reflexivity.
Defined.

Lemma Decrypt_short_body_witness :
  @Decrypt RFC8439.cipher Reference.K1 (Reference.upto 39) None
  = Returns ([], Some ErrOpen).
Proof.
  apply (@Decrypt_short_body RFC8439.cipher Reference.K1 (Reference.upto 39) None).
  - reflexivity.
  - vm_compute. lia.
Defined.

Lemma Decrypt_returns_authenticated_witness :
  let encrypted :=
    Reference.upto 24
    ++ RFC8439.xseal (Reference.upto 32) (Reference.upto 24)
         Reference.hello_world [] in
  length (Data Reference.K1) = keySize ∧
  (nonceSize + tagSize ≤ length encrypted)%nat ∧
  RFC8439.xopen (Data Reference.K1) (take nonceSize encrypted)
    (drop nonceSize encrypted) [] = Some Reference.hello_world.
Proof.
  apply (@Decrypt_returns_authenticated RFC8439.cipher Reference.K1 _ None
           Reference.hello_world).
  vm_compute. reflexivity.
Defined.

Lemma derive_encrypt_decrypt_witness :
  ∃ encrypted,
    @Encrypt Reference.tape RFC8439.cipher
      {| Data := bytes_of_string "Tr0ub4dor&3xample!Long" ++ Reference.upto 10 |}
      Reference.hello_world None (Reference.upto 40)
    = (Returns (encrypted, None), drop 24 (Reference.upto 40)) ∧
    length encrypted = 24 + length Reference.hello_world + 16 ∧
    ∀ key2,
      @NewIDKey Reference.long_enough Reference.stretched DefaultParams
        "Tr0ub4dor&3xample!Long" (Reference.upto 32) = (Some key2, None) →
      @Decrypt RFC8439.cipher key2 encrypted None
      = Returns (Reference.hello_world, None).
Proof.
  apply (@derive_encrypt_decrypt Reference.long_enough Reference.stretched
           Reference.tape RFC8439.cipher DefaultParams "Tr0ub4dor&3xample!Long"
           (Reference.upto 32) _ Reference.hello_world None (Reference.upto 40)
           (Reference.upto 24) (drop 24 (Reference.upto 40))
           stretched_idkey_length cipher_seal_adds_tag cipher_open_inverts_seal).
  - reflexivity.
  - reflexivity.
  - vm_compute. discriminate.
  - reflexivity.
  - vm_compute. intros Hz. inversion Hz. discriminate.
Defined.
